(** * ThreadSafeMap: a key-value store with per-entry expiry

    Shallow embedding of [src/key_value.h] (class [KeyValue]) and
    [src/safe_map.h] (class [SafeMap]).

    - A time point ([TimeStamp], [std::chrono::system_clock::time_point]) is
      the number of clock ticks since the epoch, a [Z].  The arithmetic on
      time points and on [int] counters is the arithmetic of [Z]: signed
      overflow is undefined in C++, so there is no wrap-around to model.
    - A [std::shared_ptr<KeyValue>] is an index into the list [objects] of all
      records allocated so far.  The three containers of the map hold such
      indices, so that [delete_value] through one of them is seen through the
      others, as in the source.
    - [_data_map] ([std::unordered_map]) is a [gmap]; [_queue] ([std::deque])
      is a list; [_min_expire_heap] ([std::priority_queue]) is a list kept
      ordered by expiry time, whose head is [top()].
    - Every read of [system_clock::now()] is an explicit argument [now] of the
      operation that performs it; an operation that holds the mutex observes
      one clock value.
    - The template parameters are instantiated as in [main.cpp]:
      [SafeMap<int, int>]. *)

From stdpp Require Import gmap list fin_maps sorting.

Local Open Scope Z_scope.

(** ** key_value.h *)

Abbreviation TimeStamp := Z.
Abbreviation ptr := nat.

(** [std::chrono::milliseconds(n)] converted to the duration of
    [system_clock] (nanoseconds). *)
Definition milliseconds (n : Z) : Z := n * 1000000.

Record KeyValue : Type := mkKeyValue {
  _key : Z;
  _value : Z;
  _insert_time : TimeStamp;
  _expire_time : TimeStamp;
  _expire_time_interval : Z;
  _is_delete : bool
}.

#[global] Instance KeyValue_inhabited : Inhabited KeyValue :=
  populate (mkKeyValue 0 0 0 0 0 true).

(** The constructor [KeyValue(key, value, expire_time_interval)];
    [now] is the value read from [SystemClock::now()]. *)
Definition KeyValue_ctor (key value : Z) (expire_time_interval : Z)
    (now : TimeStamp) : KeyValue :=
  {| _key := key;
     _value := value;
     _insert_time := now;
     _expire_time := now + milliseconds expire_time_interval;
     _expire_time_interval := expire_time_interval;
     _is_delete := false |}.

Definition is_expire (kv : KeyValue) (now : TimeStamp) : bool :=
  if _is_delete kv then true
  else if _expire_time_interval kv =? -1 then false
  else now >? _expire_time kv.

Definition delete_value (kv : KeyValue) : KeyValue :=
  {| _key := _key kv;
     _value := _value kv;
     _insert_time := _insert_time kv;
     _expire_time := _expire_time kv;
     _expire_time_interval := _expire_time_interval kv;
     _is_delete := true |}.

Definition get_value (kv : KeyValue) : Z := _value kv.
Definition get_key (kv : KeyValue) : Z := _key kv.
Definition get_insert_time (kv : KeyValue) : TimeStamp := _insert_time kv.
Definition get_expire_time (kv : KeyValue) : TimeStamp := _expire_time kv.
Definition get_expire_time_interval (kv : KeyValue) : Z :=
  _expire_time_interval kv.

(** ** safe_map.h: the state *)

Record SafeMap : Type := mkSafeMap {
  objects : list KeyValue;
  _data_map : gmap Z ptr;
  _min_expire_heap : list ptr;
  _queue : list ptr
}.

(** The map after the default constructor. *)
Definition SafeMap_ctor : SafeMap :=
  {| objects := []; _data_map := ∅; _min_expire_heap := []; _queue := [] |}.

(** [*p] *)
Definition deref (m : SafeMap) (p : ptr) : KeyValue := objects m !!! p.

(** [p->delete_value()] *)
Definition ptr_delete_value (p : ptr) (m : SafeMap) : SafeMap :=
  {| objects := alter delete_value p (objects m);
     _data_map := _data_map m;
     _min_expire_heap := _min_expire_heap m;
     _queue := _queue m |}.

(** [KeyValue<K, V>::create(key, value, expire_time_interval)]:
    [std::make_shared] allocates the record. *)
Definition create (key value : Z) (expire_time_interval : Z) (now : TimeStamp)
    (m : SafeMap) : ptr * SafeMap :=
  (length (objects m),
   {| objects := objects m ++ [KeyValue_ctor key value expire_time_interval now];
      _data_map := _data_map m;
      _min_expire_heap := _min_expire_heap m;
      _queue := _queue m |}).

(** [MinExpireCompare]: the comparison of the priority queue. *)
Definition MinExpireCompare (objs : list KeyValue) (lhs rhs : ptr) : bool :=
  get_expire_time (objs !!! lhs) >? get_expire_time (objs !!! rhs).

(** [_min_expire_heap.push(p)]: [p] is placed before the first element that
    expires later than it, so that the head of the list is a record with the
    least expiry time, as [top()] is.  Records with the same expiry time are
    kept in the order of their insertion; [std::priority_queue] pops them in
    an order of its own, and nothing below depends on that order: the heap is
    used up to permutation (lemma [heap_push_perm]). *)
Fixpoint heap_push (objs : list KeyValue) (p : ptr) (h : list ptr) : list ptr :=
  match h with
  | [] => [p]
  | q :: h' =>
      if MinExpireCompare objs q p then p :: q :: h'
      else q :: heap_push objs p h'
  end.

(** ** safe_map.h: the private operations *)

Definition insert_without_lock (key : Z) (map_value : ptr) (m : SafeMap)
    : bool * SafeMap :=
  match _data_map m !! key with
  | Some _ => (false, m)
  | None =>
      (true,
       {| objects := objects m;
          _data_map := <[key := map_value]> (_data_map m);
          _min_expire_heap := heap_push (objects m) map_value (_min_expire_heap m);
          _queue := _queue m ++ [map_value] |})
  end.

Definition erase_without_lock (key : Z) (m : SafeMap) : bool * SafeMap :=
  match _data_map m !! key with
  | None => (false, m)
  | Some p =>
      (true,
       {| objects := alter delete_value p (objects m);
          _data_map := delete key (_data_map m);
          _min_expire_heap := _min_expire_heap m;
          _queue := _queue m |})
  end.

(** [std::upper_bound(first, last, value, comp)] by bisection; [comp p]
    stands for [comp(value, p)].  [fuel] bounds the number of halvings. *)
Fixpoint upper_bound_loop (fuel : nat) (q : list ptr) (comp : ptr → bool)
    (first len : nat) : nat :=
  match fuel with
  | O => first
  | S fuel' =>
      match len with
      | O => first
      | _ =>
          let half := (len / 2)%nat in
          let middle := (first + half)%nat in
          if comp (q !!! middle)
          then upper_bound_loop fuel' q comp first half
          else upper_bound_loop fuel' q comp (S middle) (len - half - 1)%nat
      end
  end.

Definition upper_bound (q : list ptr) (comp : ptr → bool) : nat :=
  upper_bound_loop (length q) q comp 0%nat (length q).

(** [get_range]: the positions [low] and [high] in [temp_queue]. *)
Definition get_range (objs : list KeyValue) (temp_queue : list ptr)
    (start_time end_time : TimeStamp) : nat * nat :=
  let low := upper_bound temp_queue
               (λ map_value, get_insert_time (objs !!! map_value) >=? start_time) in
  let high := upper_bound temp_queue
               (λ map_value, get_insert_time (objs !!! map_value) >? end_time) in
  (low, high).

(** The records visited by [for (it = pair.first; it != pair.second; ++it)].
    [low <= high] always holds (lemma [get_range_le] below). *)
Definition range_iter (temp_queue : list ptr) (pair : nat * nat) : list ptr :=
  take (pair.2 - pair.1)%nat (drop pair.1 temp_queue).

(** ** safe_map.h: the public operations *)

(** [insert]: the record is created, and the clock read, before the mutex is
    taken; when the insertion fails the record is released again. *)
Definition insert (key value : Z) (expire_time_interval : Z) (now : TimeStamp)
    (m : SafeMap) : bool * SafeMap :=
  let '(map_value, m1) := create key value expire_time_interval now m in
  let '(ok, m2) := insert_without_lock key map_value m1 in
  if ok then (true, m2) else (false, m).

Definition erase_by_key (key : Z) (m : SafeMap) : bool * SafeMap :=
  erase_without_lock key m.

(** The body of the loop of [erase_by_time_range]. *)
Definition erase_range_body (it : ptr) (st : Z * SafeMap) : Z * SafeMap :=
  let '(erase_count, m) := st in
  let m1 := ptr_delete_value it m in
  let '(ok, m2) := erase_without_lock (get_key (deref m1 it)) m1 in
  (if ok then erase_count + 1 else erase_count, m2).

Definition erase_by_time_range (start_time end_time : TimeStamp) (m : SafeMap)
    : Z * SafeMap :=
  if start_time >? end_time then (0, m)
  else
    let pair := get_range (objects m) (_queue m) start_time end_time in
    foldl (λ st it, erase_range_body it st) (0, m) (range_iter (_queue m) pair).

(** The loop of [erase_by_order] over the records [its], in the order of the
    traversal; the lambda returns [false] to stop it. *)
Fixpoint erase_by_order_loop (n : Z) (now : TimeStamp) (its : list ptr)
    (count : Z) (m : SafeMap) : Z * SafeMap :=
  match its with
  | [] => (count, m)
  | map_value :: rest =>
      if negb (is_expire (deref m map_value) now) then
        let m1 := ptr_delete_value map_value m in
        let '(ok, m2) := erase_without_lock (get_key (deref m1 map_value)) m1 in
        let count' := if ok then count + 1 else count in
        if count' >=? n then (count', m2)
        else erase_by_order_loop n now rest count' m2
      else erase_by_order_loop n now rest count m
  end.

Definition erase_by_order (n : Z) (asc : bool) (now : TimeStamp) (m : SafeMap)
    : Z * SafeMap :=
  erase_by_order_loop n now (if asc then _queue m else reverse (_queue m)) 0 m.

Definition update_value (key value : Z) (expire_time_interval : Z)
    (now : TimeStamp) (m : SafeMap) : bool * SafeMap :=
  match _data_map m !! key with
  | None => (false, m)
  | Some old_map_value =>
      let '(map_value, m1) :=
        if expire_time_interval =? 0 then
          if get_expire_time_interval (deref m old_map_value) =? -1
          then create key value (-1) now m
          else create key value
                 (get_expire_time_interval (deref m old_map_value)) now m
        else create key value expire_time_interval now m in
      let m2 := ptr_delete_value old_map_value m1 in
      let m3 := (erase_without_lock (get_key (deref m2 old_map_value)) m2).2 in
      let m4 := (insert_without_lock key map_value m3).2 in
      (true, m4)
  end.

(** [get_by_key]: the boolean result and the out-parameter [value] together
    are an [option]. *)
Definition get_by_key (key : Z) (now : TimeStamp) (m : SafeMap)
    : option Z * SafeMap :=
  match _data_map m !! key with
  | None => (None, m)
  | Some p =>
      if is_expire (deref m p) now then
        (None,
         {| objects := objects m;
            _data_map := delete key (_data_map m);
            _min_expire_heap := _min_expire_heap m;
            _queue := _queue m |})
      else (Some (get_value (deref m p)), m)
  end.

Definition get_by_time_range (start_time end_time : TimeStamp) (asc : bool)
    (now : TimeStamp) (m : SafeMap) : list KeyValue * SafeMap :=
  if start_time >? end_time then ([], m)
  else
    let temp_queue := _queue m in
    let pair := get_range (objects m) temp_queue start_time end_time in
    (foldl (λ result it,
              if negb (is_expire (deref m it) now)
              then result ++ [deref m it] else result)
           [] (range_iter temp_queue pair),
     m).

(** The loop of [get_by_order] over the snapshot [its]. *)
Fixpoint get_by_order_loop (n : Z) (now : TimeStamp) (m : SafeMap)
    (its : list ptr) (count : Z) (result : list KeyValue) : list KeyValue :=
  match its with
  | [] => result
  | map_value :: rest =>
      if negb (is_expire (deref m map_value) now) then
        let result' := result ++ [deref m map_value] in
        let count' := count + 1 in
        if count' >=? n then result'
        else get_by_order_loop n now m rest count' result'
      else get_by_order_loop n now m rest count result
  end.

Definition get_by_order (n : Z) (asc : bool) (now : TimeStamp) (m : SafeMap)
    : list KeyValue * SafeMap :=
  let temp_queue := _queue m in
  (get_by_order_loop n now m (if asc then temp_queue else reverse temp_queue) 0 [],
   m).

(** ** safe_map.h: reclamation *)

(** The loop of [tick] on the heap [h]. *)
Fixpoint tick_loop (now : TimeStamp) (h : list ptr) (objs : list KeyValue)
    : list ptr * list KeyValue :=
  match h with
  | [] => ([], objs)
  | top :: h' =>
      if is_expire (objs !!! top) now
      then tick_loop now h' (alter delete_value top objs)
      else (h, objs)
  end.

Definition tick (now : TimeStamp) (m : SafeMap) : SafeMap :=
  let '(h, objs) := tick_loop now (_min_expire_heap m) (objects m) in
  {| objects := objs;
     _data_map := _data_map m;
     _min_expire_heap := h;
     _queue := _queue m |}.

(** First loop of [tick_all]: empties the heap [h] into [new_heap]. *)
Fixpoint tick_all_heap (now : TimeStamp) (h : list ptr) (new_heap : list ptr)
    (objs : list KeyValue) : list ptr * list KeyValue :=
  match h with
  | [] => (new_heap, objs)
  | top :: h' =>
      if is_expire (objs !!! top) now
      then tick_all_heap now h' new_heap (alter delete_value top objs)
      else tick_all_heap now h' (heap_push objs top new_heap) objs
  end.

(** Second loop of [tick_all]: empties the queue [q] into [new_queue]. *)
Fixpoint tick_all_queue (now : TimeStamp) (q : list ptr) (new_queue : list ptr)
    (objs : list KeyValue) : list ptr * list KeyValue :=
  match q with
  | [] => (new_queue, objs)
  | front :: q' =>
      if is_expire (objs !!! front) now
      then tick_all_queue now q' new_queue (alter delete_value front objs)
      else tick_all_queue now q' (new_queue ++ [front]) objs
  end.

(** Third loop of [tick_all], over the entries of [_data_map]. *)
Definition tick_all_map_body (now : TimeStamp)
    (st : gmap Z ptr * list KeyValue) (it : Z * ptr)
    : gmap Z ptr * list KeyValue :=
  let '(dm, objs) := st in
  if is_expire (objs !!! it.2) now
  then (delete it.1 dm, alter delete_value it.2 objs)
  else (dm, objs).

Definition tick_all_map (now : TimeStamp) (dm : gmap Z ptr)
    (objs : list KeyValue) : gmap Z ptr * list KeyValue :=
  foldl (tick_all_map_body now) (dm, objs) (map_to_list dm).

Definition tick_all (now : TimeStamp) (m : SafeMap) : SafeMap :=
  let '(new_heap, objs1) := tick_all_heap now (_min_expire_heap m) [] (objects m) in
  let '(new_queue, objs2) := tick_all_queue now (_queue m) [] objs1 in
  let '(dm, objs3) := tick_all_map now (_data_map m) objs2 in
  {| objects := objs3;
     _data_map := dm;
     _min_expire_heap := new_heap;
     _queue := new_queue |}.

(** ** Runs *)

Inductive Op : Type :=
| OpInsert (key value : Z) (expire_time_interval : Z)
| OpUpdate (key value : Z) (expire_time_interval : Z)
| OpEraseByKey (key : Z)
| OpEraseByTimeRange (start_time end_time : TimeStamp)
| OpEraseByOrder (n : Z) (asc : bool)
| OpGetByKey (key : Z)
| OpGetByTimeRange (start_time end_time : TimeStamp) (asc : bool)
| OpGetByOrder (n : Z) (asc : bool)
| OpTick
| OpTickAll.

(** The state after [op], whose clock reading (if it has one) is [now]. *)
Definition exec (op : Op) (now : TimeStamp) (m : SafeMap) : SafeMap :=
  match op with
  | OpInsert k v i => (insert k v i now m).2
  | OpUpdate k v i => (update_value k v i now m).2
  | OpEraseByKey k => (erase_by_key k m).2
  | OpEraseByTimeRange s e => (erase_by_time_range s e m).2
  | OpEraseByOrder n asc => (erase_by_order n asc now m).2
  | OpGetByKey k => (get_by_key k now m).2
  | OpGetByTimeRange s e asc => (get_by_time_range s e asc now m).2
  | OpGetByOrder n asc => (get_by_order n asc now m).2
  | OpTick => tick now m
  | OpTickAll => tick_all now m
  end.

(** [insert] is the one operation that reads the clock before it takes the
    mutex (line 66 of safe_map.h comes before line 68). *)
Definition reads_clock_before_lock (op : Op) : bool :=
  match op with OpInsert _ _ _ => true | _ => false end.

Definition is_tick (op : Op) : bool :=
  match op with OpTick => true | _ => false end.

(** [reachable_with ticks clock m]: [m] is the state of the map after some
    operations, taken in the order in which they acquired the mutex, and
    [clock] is the latest clock reading so far.  The clock never goes back, so
    a reading made under the mutex is at least [clock].  The reading of an
    [insert] was made before it acquired the mutex, possibly before
    operations that acquired it earlier, so it may be older than [clock].
    The incremental [tick] is among the operations only when [ticks] is
    [true]. *)
Inductive reachable_with (ticks : bool) : TimeStamp → SafeMap → Prop :=
| reachable_ctor clock :
    reachable_with ticks clock SafeMap_ctor
| reachable_step clock m op now :
    reachable_with ticks clock m →
    (is_tick op = true → ticks = true) →
    (reads_clock_before_lock op = false → clock ≤ now) →
    reachable_with ticks (Z.max clock now) (exec op now m).

Abbreviation reachable := (reachable_with true).

(** [serial clock m]: as [reachable], when no operation starts before the
    previous one has returned: every reading is at least [clock]. *)
Inductive serial : TimeStamp → SafeMap → Prop :=
| serial_ctor clock :
    serial clock SafeMap_ctor
| serial_step clock m op now :
    serial clock m →
    clock ≤ now →
    serial now (exec op now m).

(** ** safe_map.h: the constructor from a list, and the reclaimer loop *)

(** [SafeMap(std::initializer_list<std::pair<K, V>>)]: the default
    constructor, then [insert(item.first, item.second)] for every item, the
    interval being the default [-1].  [clock i] is the clock reading of the
    insert of item [i]. *)
Definition SafeMap_ctor_list (key_value_list : list (Z * Z))
    (clock : nat → TimeStamp) : SafeMap :=
  (foldl (λ (st : nat * SafeMap) (item : Z * Z),
            (S st.1, (insert item.1 item.2 (-1) (clock st.1) st.2).2))
         (0%nat, SafeMap_ctor) key_value_list).2.

Definition kCheckAllTimes : Z := 100.

(** One iteration of the loop of [loop_tick] that finds [_is_running] set,
    after the sleep: the reclamation it runs, at clock reading [now], and the
    new value of [count]. *)
Definition loop_tick_body (now : TimeStamp) (st : Z * SafeMap) : Z * SafeMap :=
  let '(count, m) := st in
  if count =? kCheckAllTimes then (0, tick_all now m)
  else (count + 1, tick now m).

(** The first iterations of [loop_tick], one for each clock reading of
    [nows], with [count] starting at 0. *)
Definition loop_tick (nows : list TimeStamp) (m : SafeMap) : Z * SafeMap :=
  foldl (λ st now, loop_tick_body now st) (0, m) nows.

(** ** Liveness, order of the queue, traces *)

(** Past its expiry time at [now], whatever the tombstone says. *)
Definition past_expiry (kv : KeyValue) (now : TimeStamp) : bool :=
  negb (_expire_time_interval kv =? -1) && (now >? _expire_time kv).

(** Live: neither tombstoned nor past its expiry time. *)
Definition live (kv : KeyValue) (now : TimeStamp) : bool :=
  negb (_is_delete kv) && negb (past_expiry kv now).

(** [p] was inserted no later than [r]. *)
Definition insert_time_le (objs : list KeyValue) (p r : ptr) : Prop :=
  get_insert_time (objs !!! p) ≤ get_insert_time (objs !!! r).

(** The queue [q] is in non-decreasing order of insertion time. *)
Definition queue_sorted (objs : list KeyValue) (q : list ptr) : Prop :=
  StronglySorted (insert_time_le objs) q.

(** The state after the operations of [trace], each with its clock reading. *)
Definition run (trace : list (Op * TimeStamp)) : SafeMap :=
  foldl (λ m x, exec x.1 x.2 m) SafeMap_ctor trace.

(** The clock condition of [reachable_with], decided along a trace. *)
Fixpoint trace_ok (ticks : bool) (clock : TimeStamp)
    (trace : list (Op * TimeStamp)) : bool :=
  match trace with
  | [] => true
  | (op, now) :: rest =>
      implb (is_tick op) ticks
      && (reads_clock_before_lock op || (clock <=? now))
      && trace_ok ticks (Z.max clock now) rest
  end.

Definition trace_clock (clock : TimeStamp) (trace : list (Op * TimeStamp))
    : TimeStamp :=
  foldl (λ c x, Z.max c x.2) clock trace.

(** Traces used below: key 1 inserted at time 0 with 5 ms to live, then the
    tick of the reclaimer, or a read, 6 ms later. *)
Definition trace_expired_tick : list (Op * TimeStamp) :=
  [(OpInsert 1 7 5, 0); (OpTick, 6000000)].

Definition trace_expired : list (Op * TimeStamp) :=
  [(OpInsert 1 7 5, 0)].

(** Key 1 inserted at time 1 and never expiring. *)
Definition trace_one : list (Op * TimeStamp) :=
  [(OpInsert 1 7 (-1), 1)].

(** Key 1 inserted at time 1, its value replaced at time 5. *)
Definition trace_updated : list (Op * TimeStamp) :=
  [(OpInsert 1 7 (-1), 1); (OpUpdate 1 8 0, 5)].

(** Two threads call [insert]: the first creates its record at time 10 and
    is then delayed, the second creates its record at time 20 and takes the
    mutex first. *)
Definition trace_overtaken : list (Op * TimeStamp) :=
  [(OpInsert 2 8 (-1), 20); (OpInsert 1 7 (-1), 10)].

(** The record of key 1 is created at time 10 and superseded at time 20;
    then two inserts that had created their records at time 0, before
    everything else, take the mutex. *)
Definition trace_superseded_overtaken : list (Op * TimeStamp) :=
  [(OpInsert 1 7 (-1), 10); (OpUpdate 1 8 0, 20);
   (OpInsert 2 0 (-1), 0); (OpInsert 3 0 (-1), 0)].

(** ** Relations between states, and the invariant *)

(** The two statements [it->delete_value(); erase_without_lock(it->get_key())]
    of the erase loops and of [update_value]. *)
Definition erase_step (r : ptr) (m : SafeMap) : bool * SafeMap :=
  erase_without_lock (get_key (deref (ptr_delete_value r m) r))
    (ptr_delete_value r m).

(** [same_fields o o']: every record of [o] is still in [o'], with the same
    key, value and times; only tombstones may have been set. *)
Definition same_fields (o o' : list KeyValue) : Prop :=
  (length o ≤ length o')%nat ∧
  ∀ p, (p < length o)%nat →
    o' !!! p = o !!! p ∨ o' !!! p = delete_value (o !!! p).

(** [marks now o o']: [o'] is [o] where some records, all of them expired at
    [now], have been tombstoned. *)
Definition marks (now : TimeStamp) (o o' : list KeyValue) : Prop :=
  length o' = length o ∧
  ∀ p, o' !!! p = o !!! p ∨
       (is_expire (o !!! p) now = true ∧ o' !!! p = delete_value (o !!! p)).

(** [Inv ticks clock m]: the pointers of [_data_map] and [_queue] are valid,
    no record is twice in [_queue], a key is mapped to a record of that key,
    a record of [_queue] that is live at [clock] is the one its key is mapped
    to, and a tombstoned record is still mapped only after an incremental
    [tick] found it past its expiry time. *)
Record Inv (ticks : bool) (clock : TimeStamp) (m : SafeMap) : Prop := mkInv {
  inv_map_ptr : ∀ k p,
    _data_map m !! k = Some p → (p < length (objects m))%nat;
  inv_queue_ptr : ∀ p, p ∈ _queue m → (p < length (objects m))%nat;
  inv_queue_nodup : NoDup (_queue m);
  inv_key : ∀ k p, _data_map m !! k = Some p → get_key (deref m p) = k;
  inv_live : ∀ p,
    p ∈ _queue m → live (deref m p) clock = true →
    _data_map m !! get_key (deref m p) = Some p;
  inv_tomb : ∀ k p,
    _data_map m !! k = Some p → _is_delete (deref m p) = true →
    ticks = true ∧ past_expiry (deref m p) clock = true
}.

(** [indexed clock m]: the record a key is mapped to is in [_queue], and in
    [_min_expire_heap] as long as it is not expired. *)
Definition indexed (clock : TimeStamp) (m : SafeMap) : Prop :=
  ∀ k p, _data_map m !! k = Some p →
    p ∈ _queue m ∧
    (is_expire (deref m p) clock = false → p ∈ _min_expire_heap m).

(** ** Records: expiry, liveness and the tombstone *)

Lemma is_expire_live kv now : is_expire kv now = negb (live kv now).
Proof.
  unfold is_expire, live, past_expiry.
  destruct (_is_delete kv), (_expire_time_interval kv =? -1); simpl;
    try done; by destruct (now >? _expire_time kv).
Qed.

Lemma is_expire_spec kv now :
  is_expire kv now = _is_delete kv || past_expiry kv now.
Proof.
  unfold is_expire, past_expiry.
  by destruct (_is_delete kv), (_expire_time_interval kv =? -1).
Qed.

Lemma past_expiry_mono kv t1 t2 :
  t1 ≤ t2 → past_expiry kv t1 = true → past_expiry kv t2 = true.
Proof.
  unfold past_expiry. intros Hle.
  destruct (_expire_time_interval kv =? -1); simpl; [done|].
  rewrite !Z.gtb_ltb, !Z.ltb_lt. lia.
Qed.

Lemma live_mono kv t1 t2 :
  t1 ≤ t2 → live kv t2 = true → live kv t1 = true.
Proof.
  unfold live. intros Hle.
  destruct (_is_delete kv); simpl; [done|].
  destruct (past_expiry kv t1) eqn:E; [|done].
  by rewrite (past_expiry_mono _ _ _ Hle E).
Qed.

Lemma is_expire_mono kv t1 t2 :
  t1 ≤ t2 → is_expire kv t1 = true → is_expire kv t2 = true.
Proof.
  rewrite !is_expire_live, !negb_true_iff. intros Hle H1.
  destruct (live kv t2) eqn:E; [|done].
  by rewrite (live_mono _ _ _ Hle E) in H1.
Qed.

Lemma is_expire_delete_value kv now : is_expire (delete_value kv) now = true.
Proof. done. Qed.

Lemma live_delete_value kv now : live (delete_value kv) now = false.
Proof. done. Qed.

Lemma delete_value_idemp kv : delete_value (delete_value kv) = delete_value kv.
Proof. done. Qed.

Lemma live_not_deleted kv now : live kv now = true → _is_delete kv = false.
Proof. unfold live. by destruct (_is_delete kv). Qed.

(** ** The store of records *)

Lemma alter_delete_value_lookup (o : list KeyValue) p r :
  alter delete_value p o !!! r =
    if decide (p = r ∧ (p < length o)%nat) then delete_value (o !!! r)
    else o !!! r.
Proof.
  case_decide as H.
  - destruct H as [-> H]. by rewrite list_lookup_total_alter_eq.
  - destruct (decide (p = r)) as [->|Hne].
    + assert (length o ≤ r)%nat as Hge by lia.
      rewrite !list_lookup_total_alt.
      rewrite list_lookup_alter_eq.
      by rewrite (lookup_ge_None_2 o r Hge).
    + by rewrite list_lookup_total_alter_ne.
Qed.

Lemma alter_delete_value_twice (o : list KeyValue) p :
  alter delete_value p (alter delete_value p o) = alter delete_value p o.
Proof.
  apply list_eq. intros i. destruct (decide (p = i)) as [->|Hne].
  - rewrite !list_lookup_alter_eq. by destruct (o !! i).
  - by rewrite !list_lookup_alter_ne.
Qed.

Lemma same_fields_refl o : same_fields o o.
Proof. split; [done|]. by left. Qed.

Lemma same_fields_trans o1 o2 o3 :
  same_fields o1 o2 → same_fields o2 o3 → same_fields o1 o3.
Proof.
  intros [Hl1 H1] [Hl2 H2]. split; [lia|]. intros p Hp.
  destruct (H1 p Hp) as [E1|E1], (H2 p ltac:(lia)) as [E2|E2];
    rewrite E2, E1; auto.
Qed.

Lemma same_fields_alter o p : same_fields o (alter delete_value p o).
Proof.
  split; [by rewrite length_alter|]. intros r _.
  rewrite alter_delete_value_lookup. case_decide; auto.
Qed.

Lemma same_fields_app o kv : same_fields o (o ++ [kv]).
Proof.
  split; [rewrite length_app; lia|]. intros p Hp.
  left. by rewrite lookup_total_app_l.
Qed.

Lemma same_fields_key o o' p :
  same_fields o o' → (p < length o)%nat →
  get_key (o' !!! p) = get_key (o !!! p).
Proof. intros [_ H] Hp. by destruct (H p Hp) as [-> | ->]. Qed.

Lemma same_fields_insert_time o o' p :
  same_fields o o' → (p < length o)%nat →
  get_insert_time (o' !!! p) = get_insert_time (o !!! p).
Proof. intros [_ H] Hp. by destruct (H p Hp) as [-> | ->]. Qed.

Lemma marks_refl now o : marks now o o.
Proof. split; [done|]. by left. Qed.

Lemma marks_is_expire now o o' p :
  marks now o o' → is_expire (o' !!! p) now = is_expire (o !!! p) now.
Proof. intros [_ H]. by destruct (H p) as [-> | [-> ->]]. Qed.

Lemma marks_trans now o1 o2 o3 :
  marks now o1 o2 → marks now o2 o3 → marks now o1 o3.
Proof.
  intros [Hl1 H1] [Hl2 H2]. split; [congruence|]. intros p.
  destruct (H1 p) as [E1|[X1 E1]], (H2 p) as [E2|[X2 E2]];
    rewrite E2, E1; auto.
  right. split; [|done]. by rewrite <-E1.
Qed.

Lemma marks_alter now o p :
  is_expire (o !!! p) now = true → marks now o (alter delete_value p o).
Proof.
  intros He. split; [by rewrite length_alter|]. intros r.
  rewrite alter_delete_value_lookup. case_decide as H; [|by left].
  destruct H as [-> _]. by right.
Qed.

Lemma marks_same_fields now o o' : marks now o o' → same_fields o o'.
Proof.
  intros [Hl H]. split; [lia|]. intros p _. destruct (H p) as [|[_ ?]]; auto.
Qed.

(** ** The invariant of the three containers *)

Lemma Inv_ctor ticks clock : Inv ticks clock SafeMap_ctor.
Proof.
  split; simpl; intros *; try (by rewrite lookup_empty);
    try (by intros ?%elem_of_nil). apply NoDup_nil_2.
Qed.

(** A step that allocates nothing, removes records from [_queue] and entries
    from [_data_map], and sets tombstones. *)
Lemma Inv_shrink ticks clock now m m' :
  Inv ticks clock m → clock ≤ now →
  length (objects m') = length (objects m) →
  same_fields (objects m) (objects m') →
  _queue m' `sublist_of` _queue m →
  (∀ k p, _data_map m' !! k = Some p → _data_map m !! k = Some p) →
  (∀ k p, _data_map m !! k = Some p → _data_map m' !! k = None →
          live (deref m' p) now = false) →
  (∀ k p, _data_map m' !! k = Some p → _is_delete (deref m' p) = true →
          _is_delete (deref m p) = true ∨
          (ticks = true ∧ past_expiry (deref m p) now = true)) →
  Inv ticks now m'.
Proof.
  intros [Hmp Hqp Hnd Hk Hl Ht] Hle Hlen Hsf Hq Hsub Hrem Htomb.
  assert (Hin : ∀ p, p ∈ _queue m' → p ∈ _queue m)
    by (intros p Hp; by eapply elem_of_sublist).
  assert (Hfld : ∀ p, (p < length (objects m))%nat →
            deref m' p = deref m p ∨ deref m' p = delete_value (deref m p))
    by (intros p Hp; by apply Hsf).
  split.
  - intros k p Hkp. rewrite Hlen. eauto.
  - intros p Hp. rewrite Hlen. eauto.
  - by eapply sublist_NoDup.
  - intros k p Hkp. unfold deref.
    rewrite (same_fields_key _ _ _ Hsf); eauto.
  - intros p Hp Hlive.
    destruct (Hfld p) as [E|E]; [eauto|..|by rewrite E in Hlive].
    rewrite E in *. apply (live_mono _ clock) in Hlive as Hlive0; [|done].
    pose proof (Hl p (Hin p Hp) Hlive0) as Hold.
    destruct (_data_map m' !! get_key (deref m p)) as [r|] eqn:Er.
    + apply Hsub in Er. congruence.
    + specialize (Hrem _ _ Hold Er). rewrite E in Hrem. congruence.
  - intros k p Hkp Hdel.
    pose proof (Hsub _ _ Hkp) as Hold.
    assert (Hpe : ∀ t, past_expiry (deref m' p) t = past_expiry (deref m p) t)
      by (intros t; destruct (Hfld p) as [-> | ->]; eauto).
    rewrite Hpe.
    destruct (Htomb _ _ Hkp Hdel) as [Hd|[? ?]]; [|done].
    destruct (Ht _ _ Hold Hd) as [? ?]. split; [done|].
    by eapply past_expiry_mono.
Qed.

Lemma Inv_clock ticks clock now m :
  Inv ticks clock m → clock ≤ now → Inv ticks now m.
Proof.
  intros HI Hle. eapply Inv_shrink; eauto using same_fields_refl.
  intros k p Hkp. congruence.
Qed.

(** [erase_without_lock], for any key. *)
Lemma erase_without_lock_facts key m :
  let m' := (erase_without_lock key m).2 in
  length (objects m') = length (objects m) ∧
  same_fields (objects m) (objects m') ∧
  _queue m' = _queue m ∧
  _min_expire_heap m' = _min_expire_heap m ∧
  _data_map m' = delete key (_data_map m) ∧
  (erase_without_lock key m).1 = bool_decide (is_Some (_data_map m !! key)).
Proof.
  unfold erase_without_lock. destruct (_data_map m !! key) as [p|] eqn:E; simpl.
  - rewrite length_alter. split_and!; eauto using same_fields_alter.
  - split_and!; eauto using same_fields_refl.
    by rewrite delete_id.
Qed.

Lemma Inv_erase_without_lock ticks clock key m :
  Inv ticks clock m → Inv ticks clock (erase_without_lock key m).2.
Proof.
  intros HI.
  destruct (erase_without_lock_facts key m) as (Hlen & Hsf & Hq & _ & Hm & _).
  eapply Inv_shrink; eauto; try lia.
  - by rewrite Hq.
  - intros k p. rewrite Hm, lookup_delete_Some. tauto.
  - intros k p Hkp. rewrite Hm, lookup_delete_None.
    intros [->|HN]; [|congruence].
    unfold erase_without_lock, deref. rewrite Hkp. simpl.
    rewrite alter_delete_value_lookup, decide_True; [done|].
    split; [done|]. by eapply inv_map_ptr.
  - intros k p. rewrite Hm, lookup_delete_Some. intros [Hne Hkp].
    unfold erase_without_lock, deref.
    destruct (_data_map m !! key) as [r|] eqn:E; simpl; [|auto].
    rewrite alter_delete_value_lookup. case_decide as Hd; [|auto].
    destruct Hd as [-> _].
    pose proof (inv_key _ _ _ HI _ _ E). pose proof (inv_key _ _ _ HI _ _ Hkp).
    congruence.
Qed.

(** A tombstone set on a record that no key is mapped to. *)
Lemma Inv_ptr_delete_value_unmapped ticks clock r m :
  Inv ticks clock m →
  (∀ k, _data_map m !! k ≠ Some r) →
  Inv ticks clock (ptr_delete_value r m).
Proof.
  intros HI Hr. eapply Inv_shrink; eauto; simpl; try lia.
  - by rewrite length_alter.
  - apply same_fields_alter.
  - congruence.
  - intros k p Hkp Hdel. left. unfold deref in *. simpl in *.
    rewrite alter_delete_value_lookup in Hdel. case_decide as Hd; [|done].
    destruct Hd as [-> _]. by destruct (Hr k).
Qed.

Lemma get_key_ptr_delete_value r q m :
  get_key (deref (ptr_delete_value r m) q) = get_key (deref m q).
Proof.
  unfold deref. simpl. rewrite alter_delete_value_lookup. by case_decide.
Qed.

Lemma erase_step_facts r m :
  let m' := (erase_step r m).2 in
  length (objects m') = length (objects m) ∧
  same_fields (objects m) (objects m') ∧
  _queue m' = _queue m ∧
  _min_expire_heap m' = _min_expire_heap m ∧
  _data_map m' = delete (get_key (deref m r)) (_data_map m) ∧
  (erase_step r m).1 =
    bool_decide (is_Some (_data_map m !! get_key (deref m r))) ∧
  (∀ q, deref m' q = deref m q ∨
        (deref m' q = delete_value (deref m q) ∧
         (q = r ∨ _data_map m !! get_key (deref m r) = Some q))).
Proof.
  unfold erase_step. rewrite get_key_ptr_delete_value.
  set (k := get_key (deref m r)).
  destruct (erase_without_lock_facts k (ptr_delete_value r m))
    as (Hlen & Hsf & Hq & Hh & Hm & Hr).
  simpl in *. rewrite length_alter in Hlen.
  split_and!; try done.
  - eapply same_fields_trans; [apply same_fields_alter|done].
  - intros q. unfold erase_without_lock, deref. simpl.
    destruct (_data_map m !! k) as [x|] eqn:E; simpl;
      rewrite ?alter_delete_value_lookup;
      repeat case_decide; intuition (subst; auto).
Qed.

Lemma Inv_erase_step ticks clock r m :
  Inv ticks clock m → Inv ticks clock (erase_step r m).2.
Proof.
  intros HI. unfold erase_step. rewrite get_key_ptr_delete_value.
  set (k := get_key (deref m r)).
  destruct (decide (_data_map m !! k = Some r)) as [Hk|Hno].
  - replace (erase_without_lock k (ptr_delete_value r m))
      with (erase_without_lock k m); [by apply Inv_erase_without_lock|].
    unfold erase_without_lock. simpl. rewrite Hk.
    by rewrite alter_delete_value_twice.
  - apply Inv_erase_without_lock, Inv_ptr_delete_value_unmapped; [done|].
    intros k' Hk'. apply Hno.
    by rewrite <-(inv_key _ _ _ HI _ _ Hk') in Hk'.
Qed.

(** [create] *)
Lemma Inv_create ticks clock key value i now m :
  Inv ticks clock m → Inv ticks clock (create key value i now m).2.
Proof.
  intros [Hmp Hqp Hnd Hk Hl Ht].
  assert (Hd : ∀ p, (p < length (objects m))%nat →
            deref (create key value i now m).2 p = deref m p)
    by (intros p Hp; unfold deref; simpl; by rewrite lookup_total_app_l).
  split; simpl.
  - intros k p Hkp. rewrite length_app. apply Hmp in Hkp. lia.
  - intros p Hp. rewrite length_app. apply Hqp in Hp. lia.
  - done.
  - intros k p Hkp. rewrite Hd; eauto.
  - intros p Hp. rewrite Hd; eauto.
  - intros k p Hkp. rewrite Hd; eauto.
Qed.

(** [insert_without_lock] of a record that is in none of the containers. *)
Lemma Inv_insert_without_lock ticks clock key p m :
  Inv ticks clock m →
  (p < length (objects m))%nat →
  p ∉ _queue m →
  (∀ k, _data_map m !! k ≠ Some p) →
  get_key (deref m p) = key →
  _is_delete (deref m p) = false →
  Inv ticks clock (insert_without_lock key p m).2.
Proof.
  intros HI Hp Hnq Hnm Hkey Hdel. unfold insert_without_lock.
  destruct (_data_map m !! key) as [x|] eqn:E; [done|].
  destruct HI as [Hmp Hqp Hnd Hk Hl Ht]. split; simpl; unfold deref; simpl.
  - intros k q [[-> ->]|[_ Hq]]%lookup_insert_Some; eauto.
  - intros q [Hq| ->%list_elem_of_singleton]%elem_of_app; eauto.
  - apply NoDup_app. split_and!; [done| |apply NoDup_singleton].
    intros q Hq ->%list_elem_of_singleton. done.
  - intros k q [[-> ->]|[_ Hq]]%lookup_insert_Some; eauto.
  - intros q [Hq| ->%list_elem_of_singleton]%elem_of_app Hlive.
    + pose proof (Hl q Hq Hlive) as Hold.
      rewrite lookup_insert_ne; [done|]. unfold deref in Hold. congruence.
    + unfold deref in Hkey. rewrite Hkey. apply lookup_insert_eq.
  - intros k q [[-> ->]|[_ Hq]]%lookup_insert_Some; [|by eauto].
    unfold deref in Hdel. congruence.
Qed.

Lemma Inv_insert ticks clock key value i now m :
  Inv ticks clock m → Inv ticks clock (insert key value i now m).2.
Proof.
  intros HI. unfold insert.
  destruct (create key value i now m) as [p m1] eqn:Ec.
  destruct (insert_without_lock key p m1) as [ok m2] eqn:Ei.
  destruct ok; simpl; [|done].
  replace m2 with (insert_without_lock key p m1).2 by by rewrite Ei.
  replace m1 with (create key value i now m).2 by by rewrite Ec.
  assert (p = length (objects m)) as -> by (unfold create in Ec; congruence).
  apply Inv_insert_without_lock; [by apply Inv_create|..];
    unfold deref; simpl.
  - rewrite length_app. simpl. lia.
  - intros Hq%(inv_queue_ptr _ _ _ HI). lia.
  - intros k Hk%(inv_map_ptr _ _ _ HI). lia.
  - by rewrite list_lookup_total_middle.
  - by rewrite list_lookup_total_middle.
Qed.

(** [update_value] on a key that is mapped. *)
Lemma update_value_unfold key value i now m old :
  _data_map m !! key = Some old →
  update_value key value i now m =
    (true,
     (insert_without_lock key (length (objects m))
        (erase_step old
           (create key value
              (if i =? 0 then get_expire_time_interval (deref m old) else i)
              now m).2).2).2).
Proof.
  intros Hk. unfold update_value. rewrite Hk.
  destruct (i =? 0); [|done].
  destruct (get_expire_time_interval (deref m old) =? -1) eqn:E; [|done].
  apply Z.eqb_eq in E. by rewrite E.
Qed.

Lemma Inv_update_value ticks clock key value i now m :
  Inv ticks clock m → Inv ticks clock (update_value key value i now m).2.
Proof.
  intros HI. destruct (_data_map m !! key) as [old|] eqn:Hk;
    [|by unfold update_value; rewrite Hk].
  rewrite (update_value_unfold _ _ _ _ _ _ Hk). cbn [snd].
  set (j := if i =? 0 then _ else _).
  set (m1 := (create key value j now m).2).
  assert (HI1 : Inv ticks clock m1) by by apply Inv_create.
  destruct (erase_step_facts old m1) as (Hlen & Hsf & Hq & _ & Hm & _ & Hch).
  set (p := length (objects m)).
  assert (Hp1 : deref m1 p = KeyValue_ctor key value j now)
    by (unfold deref, m1; simpl; by rewrite list_lookup_total_middle).
  assert (Hold : (old < p)%nat) by by eapply inv_map_ptr.
  assert (Hnm : ∀ k, _data_map m1 !! k ≠ Some p)
    by (intros k Hkp%(inv_map_ptr _ _ _ HI); unfold p in *; lia).
  assert (Hp3 : deref (erase_step old m1).2 p = deref m1 p).
  { destruct (Hch p) as [E|[_ [E|E]]]; [done|lia|by apply Hnm in E]. }
  apply Inv_insert_without_lock; [by apply Inv_erase_step|..].
  - rewrite Hlen. unfold m1. simpl. rewrite length_app. simpl. fold p. lia.
  - rewrite Hq. simpl. intros Hin%(inv_queue_ptr _ _ _ HI). unfold p in *. lia.
  - intros k. rewrite Hm. intros [_ E]%lookup_delete_Some. by apply Hnm in E.
  - by rewrite Hp3, Hp1.
  - by rewrite Hp3, Hp1.
Qed.

(** The erase loops. *)
Lemma Inv_erase_by_order_loop ticks clock n now its count m :
  Inv ticks clock m → Inv ticks clock (erase_by_order_loop n now its count m).2.
Proof.
  revert count m. induction its as [|p its IH]; intros count m HI; [done|].
  simpl. destruct (negb (is_expire (deref m p) now)); [|by apply IH].
  fold (erase_step p m). pose proof (Inv_erase_step _ _ p _ HI) as HI'.
  destruct (erase_step p m) as [ok m2]. simpl in HI'.
  destruct (_ >=? n); [done|by apply IH].
Qed.

Lemma Inv_erase_range_loop ticks clock its count m :
  Inv ticks clock m →
  Inv ticks clock (foldl (λ st it, erase_range_body it st) (count, m) its).2.
Proof.
  revert count m. induction its as [|p its IH]; intros count m HI; [done|].
  simpl. fold (erase_step p m). pose proof (Inv_erase_step _ _ p _ HI) as HI'.
  destruct (erase_step p m) as [ok m2]. by apply IH.
Qed.

Lemma Inv_erase_by_time_range ticks clock s e m :
  Inv ticks clock m → Inv ticks clock (erase_by_time_range s e m).2.
Proof.
  intros HI. unfold erase_by_time_range. destruct (s >? e); [done|].
  by apply Inv_erase_range_loop.
Qed.

Lemma Inv_get_by_key ticks clock key now m :
  Inv ticks clock m → clock ≤ now → Inv ticks now (get_by_key key now m).2.
Proof.
  intros HI Hle. unfold get_by_key.
  destruct (_data_map m !! key) as [p|] eqn:E; [|by eapply Inv_clock].
  destruct (is_expire (deref m p) now) eqn:Ex; [|by eapply Inv_clock].
  apply (Inv_shrink ticks clock now m); simpl;
    [done|done|done|apply same_fields_refl|done|..].
  - intros k q [_ ?]%lookup_delete_Some. done.
  - intros k q Hkq [->|HN]%lookup_delete_None; [|congruence].
    assert (q = p) as -> by congruence.
    rewrite is_expire_live in Ex. by apply negb_true_iff in Ex.
  - auto.
Qed.

(** ** Reclamation sets tombstones on expired records only *)

Lemma tick_loop_marks now h o : marks now o (tick_loop now h o).2.
Proof.
  revert o. induction h as [|top h IH]; intros o; simpl;
    [apply marks_refl|].
  destruct (is_expire (o !!! top) now) eqn:E; [|apply marks_refl].
  eapply marks_trans; [by apply marks_alter|apply IH].
Qed.

Lemma tick_all_heap_marks now h new_heap o :
  marks now o (tick_all_heap now h new_heap o).2.
Proof.
  revert new_heap o. induction h as [|top h IH]; intros new_heap o; simpl;
    [apply marks_refl|].
  destruct (is_expire (o !!! top) now) eqn:E; [|apply IH].
  eapply marks_trans; [by apply marks_alter|apply IH].
Qed.

Lemma tick_all_queue_spec now q new_queue o :
  (tick_all_queue now q new_queue o).1 =
    new_queue ++ filter (λ p, is_expire (o !!! p) now = false) q ∧
  marks now o (tick_all_queue now q new_queue o).2.
Proof.
  revert new_queue o. induction q as [|front q IH]; intros new_queue o; simpl.
  { split; [by rewrite app_nil_r|apply marks_refl]. }
  destruct (is_expire (o !!! front) now) eqn:E.
  - pose proof (marks_alter now o front E) as Hm.
    destruct (IH new_queue (alter delete_value front o)) as [-> Hm'].
    split; [|by eapply marks_trans].
    rewrite filter_cons_False by congruence. f_equal.
    apply list_filter_iff. intros p. by rewrite (marks_is_expire _ _ _ p Hm).
  - destruct (IH (new_queue ++ [front]) o) as [-> Hm']. split; [|done].
    rewrite filter_cons_True by done. by rewrite <-app_assoc.
Qed.

Lemma tick_all_map_fold now l dm o :
  let st := foldl (tick_all_map_body now) (dm, o) l in
  marks now o st.2 ∧
  (∀ k p, st.1 !! k = Some p → dm !! k = Some p) ∧
  (∀ k p, (k, p) ∈ l → is_expire (o !!! p) now = true → st.1 !! k = None) ∧
  (∀ k p, dm !! k = Some p → st.1 !! k = None →
          ∃ p', (k, p') ∈ l ∧ is_expire (o !!! p') now = true).
Proof.
  revert dm o. induction l as [|[k0 p0] l IH]; intros dm o; simpl.
  { split_and!; [apply marks_refl|done|by intros ?? ?%elem_of_nil|].
    intros k p ??. congruence. }
  destruct (is_expire (o !!! p0) now) eqn:E.
  - pose proof (marks_alter now o p0 E) as Hm.
    destruct (IH (delete k0 dm) (alter delete_value p0 o))
      as (Hm' & HA & HB & HC).
    split_and!.
    + by eapply marks_trans.
    + intros k p Hkp. apply HA in Hkp.
      by apply lookup_delete_Some in Hkp as [_ ?].
    + intros k p [[= -> ->]|Hin]%elem_of_cons Hex.
      * destruct ((foldl _ _ l).1 !! k0) eqn:El; [|done].
        apply HA in El. by rewrite lookup_delete_eq in El.
      * eapply HB; [done|]. by rewrite (marks_is_expire _ _ _ p Hm).
    + intros k p Hkp Hnone. destruct (decide (k = k0)) as [->|Hne].
      * exists p0. split; [left|done].
      * destruct (HC k p) as (p' & Hin & Hex); [by rewrite lookup_delete_ne|done|].
        exists p'. split; [by right|].
        by rewrite <-(marks_is_expire _ _ _ p' Hm).
  - destruct (IH dm o) as (Hm' & HA & HB & HC). split_and!; [done|done|..].
    + intros k p [[= -> ->]|Hin]%elem_of_cons Hex; [congruence|by eapply HB].
    + intros k p Hkp Hnone. destruct (HC k p Hkp Hnone) as (p' & Hin & Hex).
      exists p'. split; [by right|done].
Qed.

Lemma tick_all_map_spec now dm o :
  let st := tick_all_map now dm o in
  marks now o st.2 ∧
  (∀ k p, st.1 !! k = Some p →
          dm !! k = Some p ∧ is_expire (o !!! p) now = false) ∧
  (∀ k p, dm !! k = Some p → st.1 !! k = None →
          is_expire (o !!! p) now = true).
Proof.
  unfold tick_all_map.
  destruct (tick_all_map_fold now (map_to_list dm) dm o) as (Hm & HA & HB & HC).
  split_and!; [done|..].
  - intros k p Hkp. pose proof (HA _ _ Hkp) as Hold. split; [done|].
    destruct (is_expire (o !!! p) now) eqn:E; [|done].
    rewrite (HB k p) in Hkp; [done| |done]. by apply elem_of_map_to_list.
  - intros k p Hkp Hnone. destruct (HC k p Hkp Hnone) as (p' & Hin & Hex).
    apply elem_of_map_to_list in Hin. congruence.
Qed.

Lemma tick_facts now m :
  marks now (objects m) (objects (tick now m)) ∧
  _data_map (tick now m) = _data_map m ∧
  _queue (tick now m) = _queue m.
Proof.
  unfold tick. pose proof (tick_loop_marks now (_min_expire_heap m) (objects m)).
  by destruct (tick_loop _ _ _).
Qed.

Lemma tick_all_facts now m :
  marks now (objects m) (objects (tick_all now m)) ∧
  _queue (tick_all now m) =
    filter (λ p, is_expire (deref m p) now = false) (_queue m) ∧
  (∀ k p, _data_map (tick_all now m) !! k = Some p →
          _data_map m !! k = Some p ∧ is_expire (deref m p) now = false) ∧
  (∀ k p, _data_map m !! k = Some p → _data_map (tick_all now m) !! k = None →
          is_expire (deref m p) now = true).
Proof.
  unfold tick_all, deref.
  pose proof (tick_all_heap_marks now (_min_expire_heap m) [] (objects m)) as H1.
  destruct (tick_all_heap _ _ _ _) as [nh o1]. simpl in H1.
  destruct (tick_all_queue_spec now (_queue m) [] o1) as [Hq H2].
  destruct (tick_all_queue _ _ _ _) as [nq o2]. simpl in Hq, H2.
  destruct (tick_all_map_spec now (_data_map m) o2) as (H3 & HA & HB).
  destruct (tick_all_map _ _ _) as [dm o3]. simpl in *.
  pose proof (marks_trans _ _ _ _ H1 H2) as H12.
  split_and!.
  - by eapply marks_trans.
  - rewrite Hq. apply list_filter_iff. intros p.
    by rewrite (marks_is_expire _ _ _ p H1).
  - intros k p Hkp. destruct (HA _ _ Hkp) as [? Hex]. split; [done|].
    by rewrite <-(marks_is_expire _ _ _ p H12).
  - intros k p Hkp Hnone. rewrite <-(marks_is_expire _ _ _ p H12). eauto.
Qed.

Lemma Inv_tick clock now m :
  Inv true clock m → clock ≤ now → Inv true now (tick now m).
Proof.
  intros HI Hle. destruct (tick_facts now m) as (Hm & Hdm & Hq).
  apply (Inv_shrink true clock now m);
    [done|done|apply Hm|by eapply marks_same_fields|by rewrite Hq|..].
  - intros k p. by rewrite Hdm.
  - intros k p. rewrite Hdm. congruence.
  - intros k p _ Hdel. unfold deref in *.
    destruct Hm as [_ Hm]. destruct (Hm p) as [E|[Hex E]]; [left; congruence|].
    rewrite is_expire_spec in Hex.
    apply orb_true_iff in Hex as [Hd|Hp]; [by left|by right].
Qed.

Lemma Inv_tick_all ticks clock now m :
  Inv ticks clock m → clock ≤ now → Inv ticks now (tick_all now m).
Proof.
  intros HI Hle. destruct (tick_all_facts now m) as (Hm & Hq & HA & HB).
  apply (Inv_shrink ticks clock now m);
    [done|done|apply Hm|by eapply marks_same_fields|..].
  - rewrite Hq. apply sublist_filter.
  - intros k p Hkp. by apply HA.
  - intros k p Hkp Hnone. pose proof (HB _ _ Hkp Hnone) as Hex.
    unfold deref in *. rewrite <-(marks_is_expire _ _ _ p Hm) in Hex.
    rewrite is_expire_live in Hex. by apply negb_true_iff in Hex.
  - intros k p Hkp Hdel. destruct (HA _ _ Hkp) as [_ Hex].
    unfold deref in *. rewrite <-(marks_is_expire _ _ _ p Hm) in Hex.
    rewrite is_expire_spec in Hex. apply orb_false_iff in Hex as [Hd _].
    congruence.
Qed.

Lemma Inv_exec ticks clock op now m :
  Inv ticks clock m →
  (is_tick op = true → ticks = true) →
  (reads_clock_before_lock op = false → clock ≤ now) →
  Inv ticks (Z.max clock now) (exec op now m).
Proof.
  intros HI Ht Hc.
  destruct op; simpl in *;
    try (specialize (Hc eq_refl); rewrite Z.max_r by done).
  - eapply Inv_clock; [by apply Inv_insert|lia].
  - eapply Inv_clock; [by apply Inv_update_value|done].
  - eapply Inv_clock; [by apply Inv_erase_without_lock|done].
  - eapply Inv_clock; [by apply Inv_erase_by_time_range|done].
  - eapply Inv_clock; [by apply Inv_erase_by_order_loop|done].
  - by apply (Inv_get_by_key _ clock).
  - unfold get_by_time_range. destruct (_ >? _); by eapply Inv_clock.
  - by eapply Inv_clock.
  - rewrite (Ht eq_refl) in *. by apply (Inv_tick clock).
  - by apply (Inv_tick_all _ clock).
Qed.

Lemma reachable_Inv ticks clock m :
  reachable_with ticks clock m → Inv ticks clock m.
Proof.
  induction 1 as [clock|clock m op now _ IH Ht Hc];
    [apply Inv_ctor|by apply Inv_exec].
Qed.

(** ** Reachable states *)

Lemma foldl_exec_reachable ticks clock m trace :
  reachable_with ticks clock m →
  trace_ok ticks clock trace = true →
  reachable_with ticks (trace_clock clock trace)
    (foldl (λ m x, exec x.1 x.2 m) m trace).
Proof.
  revert clock m. induction trace as [|[op now] trace IH]; intros clock m Hr;
    simpl; [done|].
  intros [[Ht Hc]%andb_true_iff Hrest]%andb_true_iff.
  apply IH; [|done]. apply reachable_step; [done|..].
  - intros E. by rewrite E in Ht.
  - intros E. rewrite E in Hc. simpl in Hc. by apply Z.leb_le.
Qed.

Lemma run_reachable ticks clock trace :
  trace_ok ticks clock trace = true →
  reachable_with ticks (trace_clock clock trace) (run trace).
Proof. apply foldl_exec_reachable, reachable_ctor. Qed.

(** C1, as stated, fails: after the tick of the reclaimer has tombstoned the
    expired record of key 1, the key is still in [_data_map]. *)
Lemma mapped_record_tombstoned_by_tick :
  ¬ (∀ clock m, reachable clock m →
       ∀ k p, _data_map m !! k = Some p → _is_delete (deref m p) = false).
Proof.
  intros H.
  specialize (H _ _ (run_reachable true 0 trace_expired_tick eq_refl) 1 0%nat).
  by vm_compute in H; specialize (H eq_refl).
Qed.

(** C1 (amended): in every reachable state, a key of [_data_map] is mapped to
    a tombstoned record only if the run has incremental ticks and the record
    is past its expiry time; after insert, update, erase, get and full
    sweeps alone no key is mapped to a tombstoned record. *)
Theorem mapped_tombstone_only_by_tick ticks clock m k p :
  reachable_with ticks clock m →
  _data_map m !! k = Some p →
  _is_delete (deref m p) = true →
  ticks = true ∧ past_expiry (deref m p) clock = true.
Proof. intros Hr. apply inv_tomb. by apply reachable_Inv. Qed.

(** After [trace_expired_tick], key 1 is mapped to a tombstoned record. *)
Lemma mapped_tombstone_only_by_tick_witness :
  reachable_with true 6000000 (run trace_expired_tick) ∧
  _data_map (run trace_expired_tick) !! 1 = Some 0%nat ∧
  _is_delete (deref (run trace_expired_tick) 0%nat) = true ∧
  (true = true ∧
   past_expiry (deref (run trace_expired_tick) 0%nat) 6000000 = true).
Proof.
  pose (Hr := run_reachable true 0 trace_expired_tick eq_refl).
  split; [exact Hr|].
  split; [reflexivity|].
  split; [reflexivity|].
  exact (mapped_tombstone_only_by_tick true 6000000 (run trace_expired_tick)
           1 0%nat Hr eq_refl eq_refl).
Defined.

(** C9: in every reachable state, a record of [_queue] that is neither
    tombstoned nor past its expiry time has its key in [_data_map], mapped
    to that very record; hence two live records of [_queue] with the same
    key are at the same position. *)
Theorem live_record_is_mapped clock now m p :
  reachable clock m →
  clock ≤ now →
  p ∈ _queue m →
  live (deref m p) now = true →
  _data_map m !! get_key (deref m p) = Some p ∧
  ∀ i j q,
    _queue m !! i = Some p → _queue m !! j = Some q →
    live (deref m q) now = true →
    get_key (deref m q) = get_key (deref m p) →
    i = j.
Proof.
  intros Hr%reachable_Inv Hle Hp Hlive.
  apply (Inv_clock _ _ now) in Hr; [|done].
  pose proof (inv_live _ _ _ Hr p Hp Hlive) as Hmap.
  split; [done|].
  intros i j q Hi Hj Hq Hkey.
  pose proof (inv_live _ _ _ Hr q (list_elem_of_lookup_2 _ _ _ Hj) Hq) as Hmq.
  rewrite Hkey, Hmap in Hmq. injection Hmq as ->.
  eapply NoDup_lookup; [by eapply inv_queue_nodup|done..].
Qed.

(** After [trace_updated], the record created by the update is live. *)
Lemma live_record_is_mapped_witness :
  reachable 5 (run trace_updated) ∧
  5 ≤ 9 ∧
  1%nat ∈ _queue (run trace_updated) ∧
  live (deref (run trace_updated) 1%nat) 9 = true ∧
  _data_map (run trace_updated) !! get_key (deref (run trace_updated) 1%nat)
    = Some 1%nat.
Proof.
  pose (Hr := run_reachable true 0 trace_updated eq_refl).
  assert (Hin : 1%nat ∈ _queue (run trace_updated))
    by (apply (list_elem_of_lookup_2 _ 1%nat); reflexivity).
  split; [exact Hr|].
  split; [lia|].
  split; [exact Hin|].
  split; [reflexivity|].
  exact (proj1 (live_record_is_mapped 5 9 (run trace_updated) 1%nat
                  Hr ltac:(lia) Hin eq_refl)).
Defined.

(** ** insert *)

Lemma heap_push_perm objs p h : heap_push objs p h ≡ₚ p :: h.
Proof.
  induction h as [|q h IH]; simpl; [done|].
  destruct (MinExpireCompare objs q p); [done|].
  rewrite IH. apply Permutation_swap.
Qed.

Lemma insert_unfold key value i now m :
  insert key value i now m =
    (if decide (is_Some (_data_map m !! key)) then (false, m)
     else (true,
           {| objects := objects m ++ [KeyValue_ctor key value i now];
              _data_map := <[key := length (objects m)]> (_data_map m);
              _min_expire_heap :=
                heap_push (objects m ++ [KeyValue_ctor key value i now])
                  (length (objects m)) (_min_expire_heap m);
              _queue := _queue m ++ [length (objects m)] |})).
Proof.
  unfold insert, create, insert_without_lock. simpl.
  destruct (_data_map m !! key) as [x|] eqn:Ek.
  - rewrite decide_True; [done|by eexists].
  - rewrite decide_False; [done|]. by intros [? ?].
Qed.

(** C7: [insert] returns false, and leaves the map as it was, if and only if
    the key is in [_data_map]; otherwise it returns true, and the new record
    is appended to [_queue], pushed on [_min_expire_heap] and is what the key
    is mapped to. *)
Theorem insert_spec key value i now m :
  let p := length (objects m) in
  let objs := objects m ++ [KeyValue_ctor key value i now] in
  insert key value i now m =
    (if decide (is_Some (_data_map m !! key)) then (false, m)
     else (true,
           {| objects := objs;
              _data_map := <[key := p]> (_data_map m);
              _min_expire_heap := heap_push objs p (_min_expire_heap m);
              _queue := _queue m ++ [p] |})) ∧
  ((insert key value i now m).1 = false ↔ is_Some (_data_map m !! key)) ∧
  heap_push objs p (_min_expire_heap m) ≡ₚ p :: _min_expire_heap m ∧
  objs !! p = Some (KeyValue_ctor key value i now).
Proof.
  intros p objs.
  split_and!;
    [apply insert_unfold| |apply heap_push_perm|by apply list_lookup_middle].
  rewrite insert_unfold. case_decide; simpl; naive_solver.
Qed.

(** ** update_value *)

Lemma erase_step_tombstones r m :
  (r < length (objects m))%nat →
  _is_delete (deref (erase_step r m).2 r) = true.
Proof.
  intros Hr. unfold erase_step, erase_without_lock, deref. simpl.
  destruct (_data_map m !! _) as [x|]; simpl;
    rewrite ?alter_delete_value_lookup, ?length_alter;
    repeat case_decide; try done; naive_solver.
Qed.

(** A successful [update_value]. *)
Lemma update_value_facts ticks clock m key value i now old :
  Inv ticks clock m →
  _data_map m !! key = Some old →
  let r := update_value key value i now m in
  let p := length (objects m) in
  let j := if i =? 0 then get_expire_time_interval (deref m old) else i in
  r.1 = true ∧
  _data_map r.2 !! key = Some p ∧
  _queue r.2 = _queue m ++ [p] ∧
  deref r.2 p = KeyValue_ctor key value j now ∧
  _is_delete (deref r.2 old) = true ∧
  same_fields (objects m) (objects r.2).
Proof.
  intros HI Hk r p j. unfold r.
  rewrite (update_value_unfold _ _ _ _ _ _ Hk). cbn [fst snd]. fold j.
  set (m1 := (create key value j now m).2).
  assert (HI1 : Inv ticks clock m1) by by apply Inv_create.
  destruct (erase_step_facts old m1) as (Hlen & Hsf & Hq & _ & Hm & _ & Hch).
  assert (Hp1 : deref m1 p = KeyValue_ctor key value j now)
    by (unfold deref, m1; simpl; by rewrite list_lookup_total_middle).
  assert (Hold : (old < p)%nat) by by eapply inv_map_ptr.
  assert (Hnm : ∀ k, _data_map m1 !! k ≠ Some p)
    by (intros k Hkp%(inv_map_ptr _ _ _ HI); unfold p in *; lia).
  assert (Hp3 : deref (erase_step old m1).2 p = deref m1 p).
  { destruct (Hch p) as [E|[_ [E|E]]]; [done|lia|by apply Hnm in E]. }
  assert (Hkey : get_key (deref m1 old) = key)
    by (eapply (inv_key _ _ _ HI1); exact Hk).
  assert (Hold3 : _is_delete (deref (erase_step old m1).2 old) = true).
  { apply erase_step_tombstones. unfold m1. simpl. rewrite length_app. lia. }
  assert (Hnone : _data_map (erase_step old m1).2 !! key = None)
    by (by rewrite Hm, Hkey, lookup_delete_eq).
  assert (Hsf1 : same_fields (objects m) (objects (erase_step old m1).2))
    by (eapply same_fields_trans; [apply same_fields_app|exact Hsf]).
  unfold insert_without_lock. rewrite Hnone. simpl.
  unfold deref in *. simpl. rewrite Hp3, Hp1.
  split_and!; [done|by rewrite lookup_insert_eq|by rewrite Hq|done|done|done].
Qed.

(** C6: [update_value] with [expire_time_interval = 0] on a key of the map
    replaces its record by a new record, inserted at the current time, whose
    interval is the one of the old record and whose expiry time is the new
    insertion time plus that interval; a record that never expires is
    replaced by one that never expires. *)
Theorem update_value_keep_existing clock m key value now old :
  reachable clock m →
  _data_map m !! key = Some old →
  let r := update_value key value 0 now m in
  let p := length (objects m) in
  let interval := get_expire_time_interval (deref m old) in
  r.1 = true ∧
  _data_map r.2 !! key = Some p ∧
  _queue r.2 = _queue m ++ [p] ∧
  deref r.2 p =
    {| _key := key;
       _value := value;
       _insert_time := now;
       _expire_time := now + milliseconds interval;
       _expire_time_interval := interval;
       _is_delete := false |} ∧
  _is_delete (deref r.2 old) = true ∧
  (interval = -1 → ∀ t, is_expire (deref r.2 p) t = false).
Proof.
  intros HI%reachable_Inv Hk r p interval.
  destruct (update_value_facts _ _ _ key value 0 now _ HI Hk)
    as (H1 & H2 & H3 & H4 & H5 & _).
  split_and!; [done..|].
  intros Hi t. fold r p in H4. rewrite H4.
  unfold is_expire, KeyValue_ctor. simpl. fold interval. by rewrite Hi.
Qed.

(** Key 1, inserted at time 0 with 5 ms to live, updated 2 ms later. *)
Lemma update_value_keep_existing_witness :
  reachable 0 (run trace_expired) ∧
  _data_map (run trace_expired) !! 1 = Some 0%nat ∧
  get_expire_time (deref (update_value 1 8 0 2000000 (run trace_expired)).2 1%nat)
    = 2000000 + milliseconds 5.
Proof.
  pose (Hr := run_reachable true 0 trace_expired eq_refl).
  split; [exact Hr|].
  split; [reflexivity|].
  pose proof (update_value_keep_existing 0 (run trace_expired) 1 8 2000000
                0%nat Hr eq_refl) as (_ & _ & _ & Hd & _).
  exact (f_equal get_expire_time Hd).
Defined.

(** ** get_by_key *)

(** What [get_by_key] does: on an expired record the key is erased from
    [_data_map], and [objects] is left as it is. *)
Lemma get_by_key_spec key now m :
  get_by_key key now m =
    match _data_map m !! key with
    | None => (None, m)
    | Some p =>
        if live (deref m p) now then (Some (get_value (deref m p)), m)
        else (None,
              {| objects := objects m;
                 _data_map := delete key (_data_map m);
                 _min_expire_heap := _min_expire_heap m;
                 _queue := _queue m |})
    end.
Proof.
  unfold get_by_key. destruct (_data_map m !! key) as [p|]; [|done].
  rewrite is_expire_live. by destruct (live (deref m p) now).
Qed.

(** C2 fails on the code: key 1 is inserted at time 0 with 5 ms to live and
    read 6 ms later.  [get_by_key] finds the record expired, erases the key
    from [_data_map] and returns nothing, but does not call [delete_value]:
    the record is not tombstoned. *)
Theorem get_by_key_expired_not_tombstoned :
  let m := run trace_expired in
  let r := get_by_key 1 6000000 m in
  _data_map m !! 1 = Some 0%nat ∧
  is_expire (deref m 0%nat) 6000000 = true ∧
  r.1 = None ∧
  _data_map r.2 !! 1 = None ∧
  _is_delete (deref r.2 0%nat) = false.
Proof. by vm_compute. Qed.

(** The full sweep, in the same state, does set the tombstone. *)
Lemma tick_all_expired_tombstoned :
  let m := tick_all 6000000 (run trace_expired) in
  _data_map m !! 1 = None ∧ _is_delete (objects m !!! 0%nat) = true.
Proof. by vm_compute. Qed.

(** ** get_by_order *)

Lemma get_by_order_loop_spec n now m its count result :
  get_by_order_loop n now m its count result =
    result ++
    take (Z.to_nat (Z.max 1 (n - count)))
      (filter (λ kv, is_expire kv now = false) (deref m <$> its)).
Proof.
  revert count result. induction its as [|p its IH]; intros count result; simpl.
  { by rewrite filter_nil, take_nil, app_nil_r. }
  destruct (is_expire (deref m p) now) eqn:E; simpl.
  - rewrite filter_cons_False by congruence. apply IH.
  - rewrite filter_cons_True by done.
    destruct (count + 1 >=? n) eqn:Ec.
    + apply Z.geb_le in Ec.
      replace (Z.to_nat (Z.max 1 (n - count))) with 1%nat by lia.
      by rewrite firstn_cons, take_0.
    + rewrite Z.geb_leb in Ec. apply Z.leb_gt in Ec.
      replace (Z.to_nat (Z.max 1 (n - count)))
        with (S (Z.to_nat (Z.max 1 (n - (count + 1))))) by lia.
      rewrite IH, firstn_cons. by rewrite <-app_assoc.
Qed.

(** What [get_by_order] does: it returns the first [max 1 n] records of the
    traversal that are not expired, and leaves the map as it is. *)
Lemma get_by_order_spec n asc now m :
  get_by_order n asc now m =
    (take (Z.to_nat (Z.max 1 n))
       (filter (λ kv, is_expire kv now = false)
          (deref m <$> (if asc then _queue m else reverse (_queue m)))),
     m).
Proof.
  unfold get_by_order. rewrite get_by_order_loop_spec. simpl.
  by rewrite Z.sub_0_r.
Qed.

Lemma get_by_order_length n asc now m :
  1 ≤ n → (length (get_by_order n asc now m).1 ≤ Z.to_nat n)%nat.
Proof.
  intros Hn. rewrite get_by_order_spec. simpl. rewrite length_take. lia.
Qed.

Lemma get_by_order_live n asc now m kv :
  kv ∈ (get_by_order n asc now m).1 → live kv now = true.
Proof.
  rewrite get_by_order_spec. simpl.
  intros (i & [Hin _]%list_elem_of_lookup_2%list_elem_of_filter & _)%elem_of_take.
  rewrite is_expire_live in Hin. by apply negb_false_iff in Hin.
Qed.

(** C8 fails on the code: with [n = 0] and one live record in the map,
    [get_by_order] returns that record: one record, more than [n]. *)
Theorem get_by_order_zero_returns_one :
  let m := run trace_one in
  (get_by_order 0 true 5 m).1 = [deref m 0%nat] ∧
  live (deref m 0%nat) 5 = true ∧
  (get_by_order 0 true 5 m).2 = m.
Proof. by vm_compute. Qed.

(** ** erase_by_order *)

Lemma size_delete_Some (dm : gmap Z ptr) k p :
  dm !! k = Some p → Z.of_nat (size (delete k dm)) = Z.of_nat (size dm) - 1.
Proof.
  intros Hk. rewrite <-(insert_id dm k p Hk) at 2.
  rewrite <-insert_delete_eq, map_size_insert_None by apply lookup_delete_eq.
  lia.
Qed.

Lemma erase_step_count r m :
  Z.of_nat (size (_data_map m)) - Z.of_nat (size (_data_map (erase_step r m).2))
    = if (erase_step r m).1 then 1 else 0.
Proof.
  destruct (erase_step_facts r m) as (_ & _ & _ & _ & Hm & Hok & _).
  rewrite Hm, Hok. destruct (_data_map m !! get_key (deref m r)) as [x|] eqn:E.
  - rewrite bool_decide_eq_true_2 by by eexists.
    rewrite (size_delete_Some _ _ _ E). lia.
  - rewrite bool_decide_eq_false_2 by by intros [? ?].
    rewrite map_size_delete_None by done. lia.
Qed.

(** The count returned is at most [n], or 1 when [n] is less than 1. *)
Lemma erase_by_order_loop_count n now its count m :
  count ≤ (erase_by_order_loop n now its count m).1 ≤ Z.max n (count + 1).
Proof.
  revert count m. induction its as [|p its IH]; intros count m; simpl; [lia|].
  destruct (negb (is_expire (deref m p) now)); [|apply IH].
  destruct (erase_without_lock _ _) as [ok m2].
  set (count' := if ok then count + 1 else count).
  assert (count ≤ count' ≤ count + 1) by (unfold count'; destruct ok; lia).
  destruct (count' >=? n) eqn:Ec; simpl; [lia|].
  rewrite Z.geb_leb in Ec. apply Z.leb_gt in Ec.
  specialize (IH count' m2). lia.
Qed.

Lemma erase_by_order_count n asc now m :
  0 ≤ (erase_by_order n asc now m).1 ≤ Z.max n 1.
Proof. apply (erase_by_order_loop_count n now _ 0 m). Qed.

(** Where the invariant holds, a record tombstoned by the loop was live, and
    the count is the number of keys erased from [_data_map]. *)
Lemma erase_by_order_loop_live ticks clock n now its count m :
  Inv ticks clock m → clock ≤ now →
  (∀ p, p ∈ its → p ∈ _queue m) →
  let r := erase_by_order_loop n now its count m in
  (∀ q, _is_delete (deref r.2 q) = true →
        _is_delete (deref m q) = true ∨
        (q ∈ its ∧ live (deref m q) now = true)) ∧
  r.1 - count =
    Z.of_nat (size (_data_map m)) - Z.of_nat (size (_data_map r.2)).
Proof.
  revert count m. induction its as [|p its IH]; intros count m HI Hle Hin;
    simpl; [split; [auto|lia]|].
  destruct (is_expire (deref m p) now) eqn:Ex; simpl.
  { destruct (IH count m HI Hle) as [H1 H2].
    - intros q Hq. apply Hin. by right.
    - split; [|done]. intros q Hq.
      destruct (H1 q Hq) as [?|[? ?]]; [by left|right]. split; [by right|done]. }
  assert (Hlive : live (deref m p) now = true)
    by (rewrite is_expire_live in Ex; by apply negb_false_iff in Ex).
  assert (Hmap : _data_map m !! get_key (deref m p) = Some p).
  { eapply inv_live; [by eapply Inv_clock|apply Hin; by left|done]. }
  fold (erase_step p m).
  pose proof (Inv_erase_step _ _ p _ HI) as HI'.
  pose proof (erase_step_count p m) as Hcnt.
  destruct (erase_step_facts p m) as (_ & _ & Hq & _ & _ & Hok & Hch).
  rewrite bool_decide_eq_true_2 in Hok by by eexists.
  destruct (erase_step p m) as [ok m2]. simpl in *. subst ok.
  assert (Hnew : ∀ q, _is_delete (deref m2 q) = true →
            _is_delete (deref m q) = true ∨ q = p).
  { intros q Hd. destruct (Hch q) as [E|[_ [E|E]]];
      [left; congruence|by right|right; congruence]. }
  destruct (count + 1 >=? n).
  { simpl. split; [|lia]. intros q Hd.
    destruct (Hnew q Hd) as [?| ->]; [by left|right]. split; [by left|done]. }
  destruct (IH (count + 1) m2 HI' Hle) as [H1 H2].
  { intros q Hq0. rewrite Hq. apply Hin. by right. }
  split; [|lia]. intros q Hd.
  destruct (H1 q Hd) as [Hd2|[Hq2 Hl2]].
  - destruct (Hnew q Hd2) as [?| ->]; [by left|right]. split; [by left|done].
  - right. split; [by right|].
    destruct (Hch q) as [E|[E _]]; rewrite E in Hl2; [done|].
    by rewrite live_delete_value in Hl2.
Qed.

Lemma erase_by_order_live clock n asc now m :
  reachable clock m → clock ≤ now →
  let r := erase_by_order n asc now m in
  (∀ q, _is_delete (deref r.2 q) = true →
        _is_delete (deref m q) = true ∨
        (q ∈ _queue m ∧ live (deref m q) now = true)) ∧
  r.1 = Z.of_nat (size (_data_map m)) - Z.of_nat (size (_data_map r.2)) ∧
  (1 ≤ n → r.1 ≤ n).
Proof.
  intros HI%reachable_Inv Hle r.
  set (its := if asc then _queue m else reverse (_queue m)).
  assert (Hits : ∀ p, p ∈ its → p ∈ _queue m).
  { intros p. unfold its. destruct asc; [done|]. by rewrite elem_of_reverse. }
  destruct (erase_by_order_loop_live _ _ n now its 0 m HI Hle Hits) as [H1 H2].
  split_and!.
  - intros q Hd. destruct (H1 q Hd) as [?|[? ?]]; auto.
  - unfold r, erase_by_order. fold its. lia.
  - intros Hn. pose proof (erase_by_order_count n asc now m). unfold r. lia.
Qed.

(** C3 fails on the code: with [n = 0] and one live record in the map,
    [erase_by_order] tombstones that record, erases its key and returns 1,
    which exceeds [n]. *)
Theorem erase_by_order_zero_erases_one :
  let m := run trace_one in
  let r := erase_by_order 0 true 5 m in
  live (deref m 0%nat) 5 = true ∧
  _data_map m !! 1 = Some 0%nat ∧
  r.1 = 1 ∧
  _data_map r.2 !! 1 = None ∧
  _is_delete (deref r.2 0%nat) = true.
Proof. by vm_compute. Qed.

(** ** get_range *)

Lemma half_lt len : (0 < len)%nat → (len / 2 < len)%nat.
Proof. intros H. apply Nat.div_lt; lia. Qed.

Lemma upper_bound_loop_S fuel q comp first len :
  upper_bound_loop (S fuel) q comp first (S len) =
    if comp (q !!! (first + S len / 2)%nat)
    then upper_bound_loop fuel q comp first (S len / 2)
    else upper_bound_loop fuel q comp (S (first + S len / 2))
           (S len - S len / 2 - 1).
Proof. done. Qed.

Lemma upper_bound_loop_bounds fuel q comp first len :
  (first ≤ upper_bound_loop fuel q comp first len ≤ first + len)%nat.
Proof.
  revert first len. induction fuel as [|fuel IH]; intros first len;
    [simpl; lia|].
  destruct len as [|len]; [simpl; lia|]. rewrite upper_bound_loop_S.
  pose proof (half_lt (S len) ltac:(lia)) as Hh.
  destruct (comp _).
  - specialize (IH first (S len / 2)%nat). lia.
  - specialize (IH (S (first + S len / 2)) (S len - S len / 2 - 1)%nat). lia.
Qed.

(** The two searches of [get_range] never cross, sorted queue or not. *)
Lemma upper_bound_loop_le fuel q (c1 c2 : ptr → bool) first len :
  (∀ p, c2 p = true → c1 p = true) →
  (upper_bound_loop fuel q c1 first len ≤
   upper_bound_loop fuel q c2 first len)%nat.
Proof.
  intros Hc. revert first len.
  induction fuel as [|fuel IH]; intros first len; [simpl; lia|].
  destruct len as [|len]; [simpl; lia|]. rewrite !upper_bound_loop_S.
  pose proof (half_lt (S len) ltac:(lia)) as Hh.
  destruct (c2 _) eqn:E2.
  - rewrite (Hc _ E2). apply IH.
  - destruct (c1 _); [|apply IH].
    pose proof (upper_bound_loop_bounds fuel q c1 first (S len / 2)).
    pose proof (upper_bound_loop_bounds fuel q c2 (S (first + S len / 2))
                  (S len - S len / 2 - 1)).
    lia.
Qed.

Lemma get_range_le objs q s e :
  s ≤ e → ((get_range objs q s e).1 ≤ (get_range objs q s e).2)%nat.
Proof.
  intros Hse. apply upper_bound_loop_le. intros p.
  rewrite Z.gtb_ltb, Z.geb_leb, Z.ltb_lt, Z.leb_le. lia.
Qed.

(** On a range where [comp] is false and then true, the search returns the
    first position where it is true. *)
Lemma upper_bound_loop_spec fuel q comp first len :
  (len ≤ fuel)%nat →
  (∀ i j, (first ≤ i)%nat → (i ≤ j)%nat → (j < first + len)%nat →
          comp (q !!! i) = true → comp (q !!! j) = true) →
  let r := upper_bound_loop fuel q comp first len in
  (∀ i, (first ≤ i < r)%nat → comp (q !!! i) = false) ∧
  (∀ i, (r ≤ i < first + len)%nat → comp (q !!! i) = true).
Proof.
  revert first len. induction fuel as [|fuel IH]; intros first len Hf Hmono.
  { simpl. split; intros i Hi; lia. }
  destruct len as [|len]; [simpl; split; intros i Hi; lia|].
  rewrite upper_bound_loop_S.
  pose proof (half_lt (S len) ltac:(lia)) as Hh.
  set (half := (S len / 2)%nat) in *.
  destruct (comp (q !!! (first + half)%nat)) eqn:E.
  - destruct (IH first half) as [H1 H2];
      [lia|intros i j ? ? ? ?; apply (Hmono i j); [lia..|done]|].
    split; [done|]. intros i Hi.
    destruct (decide (i < first + half)%nat); [apply H2; lia|].
    apply (Hmono (first + half)%nat i); [lia..|done].
  - destruct (IH (S (first + half)) (S len - half - 1)%nat) as [H1 H2];
      [lia|intros i j ? ? ? ?; apply (Hmono i j); [lia..|done]|].
    split; [|intros i Hi; apply H2; lia]. intros i Hi.
    destruct (decide (S (first + half) ≤ i)%nat); [apply H1; lia|].
    destruct (comp (q !!! i)) eqn:Ei; [|done].
    rewrite (Hmono i (first + half)%nat) in E; [done|lia..|done].
Qed.

Lemma queue_sorted_lookup objs q i j p r :
  queue_sorted objs q → (i ≤ j)%nat →
  q !! i = Some p → q !! j = Some r →
  get_insert_time (objs !!! p) ≤ get_insert_time (objs !!! r).
Proof.
  intros Hs. revert i j. induction Hs as [|x q Hs IH Hx]; intros i j Hij Hi Hj.
  { by rewrite lookup_nil in Hi. }
  destruct i as [|i], j as [|j]; simpl in *; simplify_eq; [lia| |lia|].
  - rewrite Forall_forall in Hx. apply Hx. by eapply list_elem_of_lookup_2.
  - eapply IH; [|done..]. lia.
Qed.

(** [get_range] on a sorted queue: [low] is the position of the first record
    inserted at or after [start_time], [high] that of the first record
    inserted after [end_time]. *)
Lemma get_range_spec objs q s e :
  queue_sorted objs q →
  let low := (get_range objs q s e).1 in
  let high := (get_range objs q s e).2 in
  (low ≤ length q)%nat ∧ (high ≤ length q)%nat ∧
  (∀ i p, q !! i = Some p →
     ((low ≤ i)%nat ↔ s ≤ get_insert_time (objs !!! p))) ∧
  (∀ i p, q !! i = Some p →
     ((high ≤ i)%nat ↔ e < get_insert_time (objs !!! p))).
Proof.
  intros Hs low high.
  assert (Hmono : ∀ (c : Z → bool),
            (∀ x y, x ≤ y → c x = true → c y = true) →
            let r := upper_bound q (λ p, c (get_insert_time (objs !!! p))) in
            (r ≤ length q)%nat ∧
            ∀ i p, q !! i = Some p →
              ((r ≤ i)%nat ↔ c (get_insert_time (objs !!! p)) = true)).
  { intros c Hc r.
    pose proof (upper_bound_loop_bounds (length q) q
                  (λ p, c (get_insert_time (objs !!! p))) 0 (length q)) as Hb.
    destruct (upper_bound_loop_spec (length q) q
                (λ p, c (get_insert_time (objs !!! p))) 0 (length q))
      as [H1 H2]; [done| |].
    { intros i j _ Hij Hj. simpl in Hj.
      destruct (lookup_lt_is_Some_2 q i ltac:(lia)) as [x Hx].
      destruct (lookup_lt_is_Some_2 q j ltac:(lia)) as [y Hy].
      rewrite (list_lookup_total_correct _ _ _ Hx).
      rewrite (list_lookup_total_correct _ _ _ Hy).
      apply Hc. exact (queue_sorted_lookup objs q i j x y Hs Hij Hx Hy). }
    fold (upper_bound q (λ p, c (get_insert_time (objs !!! p)))) in *.
    fold r in H1, H2, Hb. split; [lia|]. intros i p Hi.
    pose proof (lookup_lt_Some _ _ _ Hi) as Hlt.
    rewrite <-(list_lookup_total_correct _ _ _ Hi).
    split.
    - intros Hr. apply H2. lia.
    - intros Hci. destruct (decide (r ≤ i)%nat); [done|].
      rewrite H1 in Hci; [done|lia]. }
  destruct (Hmono (λ x, x >=? s)) as [Hl1 Hl2].
  { intros x y Hxy. rewrite !Z.geb_leb, !Z.leb_le. lia. }
  destruct (Hmono (λ x, x >? e)) as [Hh1 Hh2].
  { intros x y Hxy. rewrite !Z.gtb_ltb, !Z.ltb_lt. lia. }
  split_and!; [done|done|..].
  - intros i p Hi. unfold low, get_range. simpl.
    rewrite (Hl2 i p Hi), Z.geb_leb, Z.leb_le. done.
  - intros i p Hi. unfold high, get_range. simpl.
    rewrite (Hh2 i p Hi), Z.gtb_ltb, Z.ltb_lt. done.
Qed.

(** The records visited by the loops over [get_range], on a sorted queue,
    are the records of the queue inserted from [start_time] to [end_time],
    both included. *)
Lemma range_iter_spec objs q s e p :
  queue_sorted objs q →
  p ∈ range_iter q (get_range objs q s e) ↔
  p ∈ q ∧ s ≤ get_insert_time (objs !!! p) ≤ e.
Proof.
  intros Hs. destruct (get_range_spec objs q s e Hs) as (Hl & Hh & Hlow & Hhigh).
  unfold range_iter.
  set (low := (get_range objs q s e).1) in *.
  set (high := (get_range objs q s e).2) in *.
  rewrite elem_of_take. split.
  - intros (i & Hi & Hlt). rewrite lookup_drop in Hi.
    split; [by eapply list_elem_of_lookup_2|].
    pose proof (proj1 (Hlow _ _ Hi) ltac:(lia)).
    destruct (decide (e < get_insert_time (objs !!! p))) as [Hgt|]; [|lia].
    apply (Hhigh _ _ Hi) in Hgt. lia.
  - intros [(i & Hi)%list_elem_of_lookup_1 [H1 H2]].
    apply (Hlow _ _ Hi) in H1.
    assert (¬ (high ≤ i)%nat) by (rewrite (Hhigh _ _ Hi); lia).
    exists (i - low)%nat. rewrite lookup_drop.
    replace (low + (i - low))%nat with i by lia. split; [done|lia].
Qed.

(** ** erase_by_time_range *)

Lemma erase_step_tombstones_mapped r p m :
  _data_map m !! get_key (deref m r) = Some p →
  (p < length (objects m))%nat →
  _is_delete (deref (erase_step r m).2 p) = true.
Proof.
  intros Hk Hp. unfold erase_step. rewrite get_key_ptr_delete_value.
  unfold erase_without_lock, deref in *. simpl. rewrite Hk. simpl.
  rewrite alter_delete_value_lookup, length_alter. by rewrite decide_True.
Qed.

Lemma erase_step_key r m q :
  get_key (deref (erase_step r m).2 q) = get_key (deref m q).
Proof.
  destruct (erase_step_facts r m) as (_ & _ & _ & _ & _ & _ & Hch).
  by destruct (Hch q) as [-> | [-> _]].
Qed.

Lemma same_fields_tombstone o o' p :
  same_fields o o' → (p < length o)%nat →
  _is_delete (o !!! p) = true → _is_delete (o' !!! p) = true.
Proof. intros [_ H] Hp Hd. by destruct (H p Hp) as [-> | ->]. Qed.

(** The loop of [erase_by_time_range] over the records [its]. *)
Lemma erase_range_loop_facts its count m :
  let r := foldl (λ st it, erase_range_body it st) (count, m) its in
  length (objects r.2) = length (objects m) ∧
  same_fields (objects m) (objects r.2) ∧
  _queue r.2 = _queue m ∧
  (∀ k p, _data_map r.2 !! k = Some p → _data_map m !! k = Some p) ∧
  (∀ x, x ∈ its → _data_map r.2 !! get_key (deref m x) = None) ∧
  (∀ k p, _data_map m !! k = Some p → (p < length (objects m))%nat →
          _data_map r.2 !! k = None → _is_delete (deref r.2 p) = true) ∧
  (∀ q, _is_delete (deref r.2 q) = true →
        _is_delete (deref m q) = true ∨ q ∈ its ∨
        ∃ x, x ∈ its ∧ _data_map m !! get_key (deref m x) = Some q) ∧
  r.1 - count =
    Z.of_nat (size (_data_map m)) - Z.of_nat (size (_data_map r.2)).
Proof.
  revert count m. induction its as [|x its IH]; intros count m; simpl.
  { split_and!; try done; [apply same_fields_refl|by intros ? ?%elem_of_nil|
      congruence|auto|lia]. }
  fold (erase_step x m).
  pose proof (erase_step_count x m) as Hcnt.
  pose proof (λ p, erase_step_tombstones_mapped x p m) as Htm.
  pose proof (erase_step_key x m) as Hkey.
  destruct (erase_step_facts x m) as (Hlen & Hsf & Hq & _ & Hm & _ & Hch).
  destruct (erase_step x m) as [ok m2]. simpl in *.
  specialize (IH (if ok then count + 1 else count) m2).
  destruct IH as (Il & Isf & Iq & Isub & Ikeys & Itomb & Inew & Icnt).
  assert (Hsub : ∀ k p, _data_map m2 !! k = Some p → _data_map m !! k = Some p)
    by (intros k p; rewrite Hm; by intros [_ ?]%lookup_delete_Some).
  split_and!.
  - congruence.
  - by eapply same_fields_trans.
  - congruence.
  - auto.
  - intros y [->|Hy]%elem_of_cons.
    + match goal with |- ?l = None => destruct l as [p|] eqn:E end; [|done].
      apply Isub in E. by rewrite Hm, lookup_delete_eq in E.
    + rewrite <-Hkey. by apply Ikeys.
  - intros k p Hkp Hp Hnone.
    destruct (_data_map m2 !! k) as [p'|] eqn:E.
    + assert (p' = p) as -> by (apply Hsub in E; congruence).
      apply (Itomb k p); [done|lia|done].
    + rewrite Hm in E. apply lookup_delete_None in E as [<-|E]; [|congruence].
      unfold deref. eapply same_fields_tombstone; [done|lia|].
      by apply Htm.
  - intros q Hd. destruct (Inew q Hd) as [Hd2|[Hin|(y & Hy & Hmy)]].
    + destruct (Hch q) as [E|[_ [->|E]]].
      * left. congruence.
      * right. left. by left.
      * right. right. exists x. split; [by left|done].
    + right. left. by right.
    + right. right. exists y. split; [by right|].
      rewrite Hkey in Hmy. by apply Hsub.
  - destruct ok; lia.
Qed.

(** What [erase_by_time_range] does on a sorted queue, where [in_range] are
    the records of the queue inserted from [start_time] to [end_time]: the
    keys of these records are erased, the count is the number of keys erased,
    and the records tombstoned are these records and the records their keys
    were mapped to. *)
Lemma erase_by_time_range_spec s e m :
  queue_sorted (objects m) (_queue m) →
  let r := erase_by_time_range s e m in
  let in_range x := x ∈ _queue m ∧ s ≤ get_insert_time (deref m x) ≤ e in
  (s > e → r = (0, m)) ∧
  (∀ x, in_range x → _data_map r.2 !! get_key (deref m x) = None) ∧
  (∀ k p, _data_map r.2 !! k = Some p → _data_map m !! k = Some p) ∧
  (∀ q, _is_delete (deref r.2 q) = true →
        _is_delete (deref m q) = true ∨ in_range q ∨
        ∃ x, in_range x ∧ _data_map m !! get_key (deref m x) = Some q) ∧
  r.1 = Z.of_nat (size (_data_map m)) - Z.of_nat (size (_data_map r.2)).
Proof.
  intros Hs r in_range. unfold r, erase_by_time_range.
  destruct (s >? e) eqn:Ese.
  { simpl. split_and!; try done; [|auto|lia].
    intros x [_ Hx]. apply Z.gtb_gt in Ese. lia. }
  rewrite Z.gtb_ltb in Ese. apply Z.ltb_ge in Ese.
  set (its := range_iter _ _).
  assert (Hits : ∀ x, x ∈ its ↔ in_range x)
    by (intros x; apply range_iter_spec; done).
  destruct (erase_range_loop_facts its 0 m)
    as (_ & _ & _ & Hsub & Hkeys & _ & Hnew & Hcnt).
  split_and!; [lia| |done| |lia].
  - intros x Hx. by apply Hkeys, Hits.
  - intros q Hd. destruct (Hnew q Hd) as [?|[Hq|(x & Hx & Hmx)]];
      [by left|right; left; by apply Hits|].
    right. right. exists x. split; [by apply Hits|done].
Qed.

(** C10, as stated, fails on a queue that is not sorted: after
    [trace_superseded_overtaken] the queue holds records inserted at times
    10 (key 1, superseded and tombstoned), 20 (key 1, current), 0 and 0.
    The bisections of [get_range] for the range from 5 to 15 both end at
    position 4, so that [erase_by_time_range] visits no record: the current
    record of key 1 is not tombstoned, the key stays in [_data_map] and the
    count is 0. *)
Lemma erase_by_time_range_misses_on_unsorted :
  ¬ (∀ clock m start_time end_time r p k,
       reachable clock m →
       r ∈ _queue m →
       get_key (deref m r) = k →
       _is_delete (deref m r) = true →
       start_time ≤ get_insert_time (deref m r) ≤ end_time →
       _data_map m !! k = Some p →
       ¬ (start_time ≤ get_insert_time (deref m p) ≤ end_time) →
       let res := erase_by_time_range start_time end_time m in
       _is_delete (deref res.2 p) = true ∧
       _data_map res.2 !! k = None ∧
       1 ≤ res.1).
Proof.
  intros H.
  pose (m := run trace_superseded_overtaken).
  assert (Hr : reachable 20 m)
    by exact (run_reachable true 0 trace_superseded_overtaken eq_refl).
  assert (Hin : 0%nat ∈ _queue m)
    by (apply (list_elem_of_lookup_2 _ 0%nat); reflexivity).
  assert (Hrange : 5 ≤ get_insert_time (deref m 0%nat) ≤ 15)
    by (vm_compute; split; discriminate).
  assert (Hout : ¬ (5 ≤ get_insert_time (deref m 1%nat) ≤ 15))
    by (vm_compute; intros [_ Hle]; by apply Hle).
  destruct (H 20 m 5 15 0%nat 1%nat 1 Hr Hin eq_refl eq_refl Hrange eq_refl
              Hout) as (Hd & _).
  by vm_compute in Hd.
Qed.

(** What happens there: the range is empty and nothing is erased. *)
Lemma erase_by_time_range_unsorted_trace :
  let m := run trace_superseded_overtaken in
  (get_insert_time ∘ deref m) <$> _queue m = [10; 20; 0; 0] ∧
  get_range (objects m) (_queue m) 5 15 = (4%nat, 4%nat) ∧
  erase_by_time_range 5 15 m = (0, m).
Proof. by vm_compute. Qed.

(** C10 (amended): on a sorted queue, when a tombstoned record of key [k] was
    inserted between [start_time] and [end_time] while [k] is mapped to a
    record inserted outside of that range, [erase_by_time_range] tombstones
    the mapped record, erases [k] from [_data_map], and counts it: the count
    is the number of keys erased. *)
Theorem erase_by_time_range_erases_by_key clock m start_time end_time r p k :
  reachable clock m →
  queue_sorted (objects m) (_queue m) →
  r ∈ _queue m →
  get_key (deref m r) = k →
  _is_delete (deref m r) = true →
  start_time ≤ get_insert_time (deref m r) ≤ end_time →
  _data_map m !! k = Some p →
  ¬ (start_time ≤ get_insert_time (deref m p) ≤ end_time) →
  let res := erase_by_time_range start_time end_time m in
  _is_delete (deref res.2 p) = true ∧
  _data_map res.2 !! k = None ∧
  res.1 = Z.of_nat (size (_data_map m)) - Z.of_nat (size (_data_map res.2)) ∧
  1 ≤ res.1.
Proof.
  intros HI%reachable_Inv Hs Hr Hk Hd Hrange Hkp Hout res.
  destruct (erase_by_time_range_spec start_time end_time m Hs)
    as (_ & Hkeys & _ & _ & Hcnt).
  fold res in Hkeys, Hcnt.
  assert (Hnone : _data_map res.2 !! k = None)
    by (rewrite <-Hk; by apply Hkeys).
  assert (Hlt : ¬ start_time > end_time) by lia.
  split_and!; [|done|done|].
  - unfold res, erase_by_time_range in *.
    destruct (start_time >? end_time) eqn:E; [apply Z.gtb_gt in E; lia|].
    destruct (erase_range_loop_facts
                (range_iter (_queue m)
                   (get_range (objects m) (_queue m) start_time end_time)) 0 m)
      as (_ & _ & _ & _ & _ & Htomb & _).
    apply (Htomb k p); [done|by eapply inv_map_ptr|done].
  - rewrite Hcnt.
    pose proof (size_delete_Some _ _ _ Hkp) as Hsz.
    assert (Hle : (size (_data_map res.2) ≤ size (delete k (_data_map m)))%nat).
    { apply map_subseteq_size, map_subseteq_spec. intros k' p' Hk'.
      apply lookup_delete_Some. split; [congruence|].
      destruct (erase_by_time_range_spec start_time end_time m Hs)
        as (_ & _ & Hsub & _). by apply Hsub. }
    lia.
Qed.

(** After [trace_updated], the range from 0 to 2 holds the superseded record
    of key 1 and not the current one. *)
Lemma erase_by_time_range_erases_by_key_witness :
  reachable 5 (run trace_updated) ∧
  _is_delete (deref (run trace_updated) 0%nat) = true ∧
  0 ≤ get_insert_time (deref (run trace_updated) 0%nat) ≤ 2 ∧
  _data_map (run trace_updated) !! 1 = Some 1%nat ∧
  ¬ (0 ≤ get_insert_time (deref (run trace_updated) 1%nat) ≤ 2) ∧
  _is_delete (deref (erase_by_time_range 0 2 (run trace_updated)).2 1%nat)
    = true.
Proof.
  pose (Hr := run_reachable true 0 trace_updated eq_refl).
  assert (Hs : queue_sorted (objects (run trace_updated))
                 (_queue (run trace_updated))).
  { repeat constructor. vm_compute. discriminate. }
  assert (Hin : 0%nat ∈ _queue (run trace_updated))
    by (apply (list_elem_of_lookup_2 _ 0%nat); reflexivity).
  assert (Hrange : 0 ≤ get_insert_time (deref (run trace_updated) 0%nat) ≤ 2)
    by (vm_compute; split; discriminate).
  assert (Hout : ¬ (0 ≤ get_insert_time (deref (run trace_updated) 1%nat) ≤ 2))
    by (vm_compute; intros [_ H]; by apply H).
  split; [exact Hr|].
  split; [reflexivity|].
  split; [exact Hrange|].
  split; [reflexivity|].
  split; [exact Hout|].
  exact (proj1 (erase_by_time_range_erases_by_key 5 (run trace_updated) 0 2
                  0%nat 1%nat 1 Hr Hs Hin eq_refl eq_refl Hrange eq_refl Hout)).
Defined.

(** C5 fails on the code: key 1 is inserted at time 1 and its value replaced
    at time 5, so that the queue holds the superseded record, inserted at
    time 1, and the current one, inserted at time 5.
    [erase_by_time_range(0, 2)] visits the superseded record alone, and
    tombstones the current record, which is outside of the range. *)
Theorem erase_by_time_range_tombstones_outside :
  let m := run trace_updated in
  let r := erase_by_time_range 0 2 m in
  queue_sorted (objects m) (_queue m) ∧
  range_iter (_queue m) (get_range (objects m) (_queue m) 0 2) = [0%nat] ∧
  get_insert_time (deref m 1%nat) = 5 ∧
  _is_delete (deref m 1%nat) = false ∧
  _is_delete (deref r.2 1%nat) = true ∧
  r.1 = 1.
Proof.
  split; [|by vm_compute].
  repeat constructor. vm_compute. discriminate.
Qed.

(** ** The order of the queue *)

Lemma erase_by_order_loop_facts n now its count m :
  let r := erase_by_order_loop n now its count m in
  _queue r.2 = _queue m ∧ same_fields (objects m) (objects r.2).
Proof.
  revert count m. induction its as [|p its IH]; intros count m; simpl;
    [split; [done|apply same_fields_refl]|].
  destruct (negb (is_expire (deref m p) now)); [|apply IH].
  fold (erase_step p m).
  destruct (erase_step_facts p m) as (_ & Hsf & Hq & _).
  destruct (erase_step p m) as [ok m2]. simpl in *.
  destruct (_ >=? n); [done|].
  destruct (IH (if ok then count + 1 else count) m2) as [Iq Isf].
  split; [congruence|by eapply same_fields_trans].
Qed.

Lemma queue_sorted_sublist objs q q' :
  q' `sublist_of` q → queue_sorted objs q → queue_sorted objs q'.
Proof.
  induction 1 as [|x q' q Hsub IH|x q' q Hsub IH]; intros Hs; [done|..];
    apply StronglySorted_cons in Hs as [Hx Hs].
  - apply StronglySorted_cons. split; [|by apply IH].
    rewrite Forall_forall in *. intros y Hy. apply Hx.
    by eapply elem_of_sublist.
  - by apply IH.
Qed.

Lemma queue_sorted_ext o o' q :
  (∀ p, p ∈ q → get_insert_time (o' !!! p) = get_insert_time (o !!! p)) →
  queue_sorted o q → queue_sorted o' q.
Proof.
  induction q as [|x q IH]; intros He Hs; [constructor|].
  apply StronglySorted_cons in Hs as [Hx Hs]. apply StronglySorted_cons. split.
  - rewrite Forall_forall in *. intros y Hy. unfold insert_time_le.
    rewrite (He x), (He y); [by apply Hx|by right|by left].
  - apply IH; [|done]. intros p Hp. apply He. by right.
Qed.

(** One step on a sorted queue whose records were inserted by [clock]:
    records are removed from it, or a record inserted at [now] is appended. *)
Lemma queue_sorted_step o o' q q' clock now :
  queue_sorted o q →
  (∀ p, p ∈ q → (p < length o)%nat) →
  (∀ p, p ∈ q → get_insert_time (o !!! p) ≤ clock) →
  clock ≤ now →
  same_fields o o' →
  (q' `sublist_of` q ∨
   (q' = q ++ [length o] ∧ get_insert_time (o' !!! length o) = now)) →
  queue_sorted o' q' ∧ ∀ p, p ∈ q' → get_insert_time (o' !!! p) ≤ now.
Proof.
  intros Hs Hp Hc Hle Hsf Hq.
  assert (He : ∀ p, p ∈ q →
            get_insert_time (o' !!! p) = get_insert_time (o !!! p))
    by (intros p Hin; apply same_fields_insert_time; auto).
  pose proof (queue_sorted_ext o o' q He Hs) as Hs'.
  destruct Hq as [Hsub|[-> Hnew]].
  - split; [by eapply queue_sorted_sublist|].
    intros p Hin%(elem_of_sublist _ q); [|done]. rewrite He by done.
    specialize (Hc p Hin). lia.
  - split.
    + apply StronglySorted_app_2; [|done|repeat constructor].
      intros x y Hx ->%list_elem_of_singleton. unfold insert_time_le.
      rewrite Hnew, He by done. specialize (Hc x Hx). lia.
    + intros p [Hin| ->%list_elem_of_singleton]%elem_of_app; [|lia].
      rewrite He by done. specialize (Hc p Hin). lia.
Qed.

(** What an operation does to [objects] and [_queue]. *)
Lemma exec_queue ticks clock op now m :
  Inv ticks clock m →
  same_fields (objects m) (objects (exec op now m)) ∧
  (_queue (exec op now m) `sublist_of` _queue m ∨
   (_queue (exec op now m) = _queue m ++ [length (objects m)] ∧
    get_insert_time (objects (exec op now m) !!! length (objects m)) = now)).
Proof.
  intros HI. destruct op; simpl.
  - rewrite insert_unfold.
    case_decide; simpl; [split; [apply same_fields_refl|by left]|].
    split; [apply same_fields_app|right]. split; [done|].
    by rewrite list_lookup_total_middle.
  - destruct (_data_map m !! key) as [old|] eqn:Hk.
    + destruct (update_value_facts _ _ _ key value expire_time_interval now
                  _ HI Hk) as (_ & _ & Hq & Hd & _ & Hsf).
      split; [done|right]. split; [done|]. unfold deref in Hd. by rewrite Hd.
    + unfold update_value. rewrite Hk. simpl.
      split; [apply same_fields_refl|by left].
  - destruct (erase_without_lock_facts key m) as (_ & Hsf & Hq & _).
    split; [done|left]. unfold erase_by_key. by rewrite Hq.
  - unfold erase_by_time_range. destruct (_ >? _); simpl;
      [split; [apply same_fields_refl|by left]|].
    destruct (erase_range_loop_facts
                (range_iter (_queue m)
                   (get_range (objects m) (_queue m) start_time end_time)) 0 m)
      as (_ & Hsf & Hq & _).
    split; [done|left]. by rewrite Hq.
  - destruct (erase_by_order_loop_facts n now
                (if asc then _queue m else reverse (_queue m)) 0 m) as [Hq Hsf].
    split; [done|left]. unfold erase_by_order. by rewrite Hq.
  - rewrite get_by_key_spec. destruct (_data_map m !! key) as [p|]; simpl;
      [destruct (live _ _); simpl|]; (split; [apply same_fields_refl|by left]).
  - unfold get_by_time_range. destruct (_ >? _); simpl;
      (split; [apply same_fields_refl|by left]).
  - split; [apply same_fields_refl|by left].
  - destruct (tick_facts now m) as (Hm & _ & Hq).
    split; [by eapply marks_same_fields|left]. by rewrite Hq.
  - destruct (tick_all_facts now m) as (Hm & Hq & _).
    split; [by eapply marks_same_fields|left]. rewrite Hq. apply sublist_filter.
Qed.

Lemma serial_sorted clock m :
  serial clock m →
  Inv true clock m ∧
  queue_sorted (objects m) (_queue m) ∧
  ∀ p, p ∈ _queue m → get_insert_time (deref m p) ≤ clock.
Proof.
  induction 1 as [clock|clock m op now _ (HI & Hs & Hc) Hle].
  { split_and!; [apply Inv_ctor|constructor|by intros ? ?%elem_of_nil]. }
  destruct (exec_queue _ _ op now _ HI) as [Hsf Hq].
  split.
  - pose proof (Inv_exec true clock op now m HI (λ _, eq_refl) (λ _, Hle)) as HI'.
    by rewrite Z.max_r in HI' by done.
  - eapply queue_sorted_step; eauto. by eapply inv_queue_ptr.
Qed.

(** When no operation starts before the previous one has returned, the queue
    stays sorted. *)
Lemma serial_queue_sorted clock m :
  serial clock m → queue_sorted (objects m) (_queue m).
Proof. intros H. by apply serial_sorted in H as (_ & ? & _). Qed.

(** The interleaving behind [trace_overtaken], statement by statement:
    thread A runs line 66 of [insert] at time 10, thread B runs line 66 at
    time 20 and then lines 68 to 70, and thread A runs lines 68 to 70 last. *)
Lemma overtaken_insert_interleaving :
  let '(a, m1) := create 1 7 (-1) 10 SafeMap_ctor in
  let '(b, m2) := create 2 8 (-1) 20 m1 in
  let m3 := (insert_without_lock 2 b m2).2 in
  let m4 := (insert_without_lock 1 a m3).2 in
  _queue m4 = [b; a] ∧
  get_insert_time (deref m4 b) = 20 ∧
  get_insert_time (deref m4 a) = 10.
Proof. by vm_compute. Qed.

(** C4 fails on the code: [insert] creates its record, and reads the clock,
    before it takes the mutex.  A thread creates the record of key 1 at time
    10; another thread creates the record of key 2 at time 20 and appends it;
    then the first thread appends its record.  The queue holds the record
    inserted at time 20 before the record inserted at time 10. *)
Theorem queue_unsorted_after_overtaken_insert :
  let m := run trace_overtaken in
  reachable 20 m ∧
  _queue m = [0%nat; 1%nat] ∧
  get_insert_time (deref m 0%nat) = 20 ∧
  get_insert_time (deref m 1%nat) = 10 ∧
  ¬ queue_sorted (objects m) (_queue m).
Proof.
  split; [exact (run_reachable true 0 trace_overtaken eq_refl)|].
  split_and!; [done..|].
  intros [Hx _]%StronglySorted_cons.
  apply Forall_cons in Hx as [Hx _]. by vm_compute in Hx.
Qed.

(** ** Round trips between insert, update, erase and get *)

(** X1: after [insert] of a key that was not in the map, [get_by_key]
    returns the inserted value as long as the record is not past its expiry
    time, and nothing once it is. *)
Theorem get_by_key_after_insert key value i t now m :
  _data_map m !! key = None →
  let m' := (insert key value i t m).2 in
  (insert key value i t m).1 = true ∧
  (get_by_key key now m').1 =
    (if (i =? -1) || (now <=? t + milliseconds i) then Some value else None) ∧
  ((i =? -1) || (now <=? t + milliseconds i) = true →
   (get_by_key key now m').2 = m').
Proof.
  intros Hk m'. unfold m'. rewrite insert_unfold.
  rewrite decide_False by (rewrite Hk; by intros [? ?]). cbn [fst snd].
  unfold get_by_key, deref. cbn [_data_map objects].
  rewrite lookup_insert_eq, list_lookup_total_middle by done.
  unfold is_expire, KeyValue_ctor, get_value. cbn.
  destruct (i =? -1); cbn; [done|].
  rewrite Z.gtb_ltb. destruct (now <=? t + milliseconds i) eqn:E.
  - apply Z.leb_le in E. rewrite (proj2 (Z.ltb_ge _ _)) by lia. done.
  - apply Z.leb_gt in E. rewrite (proj2 (Z.ltb_lt _ _)) by lia.
    split_and!; [done..|]. intros [=].
Qed.

(** A key inserted in the empty map with 5 ms to live, read 2 ms later. *)
Lemma get_by_key_after_insert_witness :
  _data_map SafeMap_ctor !! 1 = None ∧
  (get_by_key 1 2000000 (insert 1 7 5 0 SafeMap_ctor).2).1 = Some 7.
Proof.
  split; [reflexivity|].
  exact (proj1 (proj2
    (get_by_key_after_insert 1 7 5 0 2000000 SafeMap_ctor eq_refl))).
Defined.

(** X2: a key whose record is past its expiry time still blocks [insert],
    also after the incremental [tick]; [get_by_key] and [tick_all] remove
    the key, and [insert] succeeds after either. *)
Theorem expired_key_blocks_insert key value i t now m v' i' t' :
  _data_map m !! key = None →
  i ≠ -1 →
  t + milliseconds i < now →
  let m1 := (insert key value i t m).2 in
  (insert key v' i' t' m1).1 = false ∧
  (insert key v' i' t' (tick now m1)).1 = false ∧
  (insert key v' i' t' (get_by_key key now m1).2).1 = true ∧
  (insert key v' i' t' (tick_all now m1)).1 = true.
Proof.
  intros Hk Hi Hlt m1.
  assert (Hm1 : _data_map m1 !! key = Some (length (objects m))).
  { unfold m1. rewrite insert_unfold.
    rewrite decide_False by (rewrite Hk; by intros [? ?]). cbn.
    apply lookup_insert_eq. }
  assert (Hex : is_expire (deref m1 (length (objects m))) now = true).
  { unfold m1. rewrite insert_unfold.
    rewrite decide_False by (rewrite Hk; by intros [? ?]).
    unfold deref. cbn [snd objects]. rewrite list_lookup_total_middle by done.
    unfold is_expire, KeyValue_ctor. cbn.
    rewrite (proj2 (Z.eqb_neq _ _)) by done.
    rewrite Z.gtb_ltb. by apply Z.ltb_lt. }
  assert (Hins : ∀ x, (insert key v' i' t' x).1 = false ↔
                      is_Some (_data_map x !! key)).
  { intros x. rewrite insert_unfold. case_decide; cbn; naive_solver. }
  split_and!.
  - apply Hins. by eexists.
  - apply Hins. destruct (tick_facts now m1) as (_ & -> & _). by eexists.
  - apply not_false_iff_true. rewrite Hins.
    unfold get_by_key. rewrite Hm1, Hex. cbn.
    rewrite lookup_delete_eq. by intros [? ?].
  - apply not_false_iff_true. rewrite Hins. intros [p Hp].
    destruct (tick_all_facts now m1) as (_ & _ & HA & _).
    destruct (HA _ _ Hp) as [Hp1 Hne]. congruence.
Qed.

Lemma expired_key_blocks_insert_witness :
  _data_map SafeMap_ctor !! 1 = None ∧
  5 ≠ -1 ∧
  0 + milliseconds 5 < 6000000 ∧
  (insert 1 8 (-1) 6000000 (insert 1 7 5 0 SafeMap_ctor).2).1 = false.
Proof.
  assert (H1 : 5 ≠ -1) by discriminate.
  assert (H2 : 0 + milliseconds 5 < 6000000) by reflexivity.
  split; [reflexivity|].
  split; [exact H1|].
  split; [exact H2|].
  exact (proj1 (expired_key_blocks_insert 1 7 5 0 6000000 SafeMap_ctor
                  8 (-1) 6000000 eq_refl H1 H2)).
Defined.

(** What a read of another key sees does not depend on a record that no key
    of the map is mapped to. *)
Lemma get_by_key_result_ext key now m m' :
  _data_map m' !! key = _data_map m !! key →
  (∀ p, _data_map m !! key = Some p → deref m' p = deref m p) →
  (get_by_key key now m').1 = (get_by_key key now m).1.
Proof.
  intros Hm Hd. unfold get_by_key. rewrite Hm.
  destruct (_data_map m !! key) as [p|]; [|done].
  rewrite (Hd p eq_refl). by destruct (is_expire _ _).
Qed.

(** X3: [erase_by_key] returns true if and only if the key is in the map;
    afterwards the key is read as absent, the reads of the other keys are
    what they were, and [_queue] and [_min_expire_heap] are untouched. *)
Theorem erase_by_key_spec clock key now m :
  reachable clock m →
  let r := erase_by_key key m in
  (r.1 = true ↔ is_Some (_data_map m !! key)) ∧
  get_by_key key now r.2 = (None, r.2) ∧
  (∀ key', key' ≠ key →
     (get_by_key key' now r.2).1 = (get_by_key key' now m).1) ∧
  _queue r.2 = _queue m ∧
  _min_expire_heap r.2 = _min_expire_heap m.
Proof.
  intros HI%reachable_Inv r. unfold r, erase_by_key.
  destruct (erase_without_lock_facts key m) as (_ & _ & Hq & Hh & Hm & Hok).
  split_and!; [|..|done|done].
  - rewrite Hok. apply bool_decide_eq_true.
  - unfold get_by_key. by rewrite Hm, lookup_delete_eq.
  - intros key' Hne. apply get_by_key_result_ext.
    + by rewrite Hm, lookup_delete_ne.
    + intros p Hp. unfold erase_without_lock, deref.
      destruct (_data_map m !! key) as [x|] eqn:E; [|done]. cbn.
      rewrite alter_delete_value_lookup. case_decide as Hd; [|done].
      destruct Hd as [-> _].
      pose proof (inv_key _ _ _ HI _ _ E). pose proof (inv_key _ _ _ HI _ _ Hp).
      congruence.
Qed.

Lemma erase_by_key_spec_witness :
  reachable 5 (run trace_updated) ∧
  get_by_key 1 9 (erase_by_key 1 (run trace_updated)).2
    = (None, (erase_by_key 1 (run trace_updated)).2).
Proof.
  pose (Hr := run_reachable true 0 trace_updated eq_refl).
  split; [exact Hr|].
  exact (proj1 (proj2 (erase_by_key_spec 5 1 9 (run trace_updated) Hr))).
Defined.

(** X4: [update_value] returns false and changes nothing when the key is
    not in the map, whatever the interval.  On a key of the map it succeeds,
    even when the record is expired, and [get_by_key] then returns the new
    value until the new record is past its expiry time. *)
Theorem get_by_key_after_update clock key value i now now' m :
  reachable clock m →
  let r := update_value key value i now m in
  match _data_map m !! key with
  | None => r = (false, m)
  | Some old =>
      let j := if i =? 0 then get_expire_time_interval (deref m old) else i in
      r.1 = true ∧
      (get_by_key key now' r.2).1 =
        (if (j =? -1) || (now' <=? now + milliseconds j) then Some value
         else None)
  end.
Proof.
  intros HI%reachable_Inv r.
  destruct (_data_map m !! key) as [old|] eqn:Hk;
    [|by unfold r, update_value; rewrite Hk].
  intros j.
  destruct (update_value_facts _ _ _ key value i now _ HI Hk)
    as (H1 & H2 & _ & H4 & _).
  fold r j in H1, H2, H4. split; [done|].
  unfold get_by_key. rewrite H2, H4.
  unfold is_expire, KeyValue_ctor, get_value. cbn.
  destruct (j =? -1); cbn; [done|].
  rewrite Z.gtb_ltb. destruct (now' <=? now + milliseconds j) eqn:E.
  - apply Z.leb_le in E. by rewrite (proj2 (Z.ltb_ge _ _)) by lia.
  - apply Z.leb_gt in E. by rewrite (proj2 (Z.ltb_lt _ _)) by lia.
Qed.

(** The expired key 1 of [trace_expired], updated at 6 ms and read at 7 ms. *)
Lemma get_by_key_after_update_witness :
  reachable 0 (run trace_expired) ∧
  (get_by_key 1 7000000 (update_value 1 8 0 6000000 (run trace_expired)).2).1
    = Some 8.
Proof.
  pose (Hr := run_reachable true 0 trace_expired eq_refl).
  split; [exact Hr|].
  exact (proj2 (get_by_key_after_update 0 1 8 0 6000000 7000000
                  (run trace_expired) Hr)).
Defined.

(** ** Queries and erasure by insertion time *)

(** X6: for [start_time <= end_time] the two positions computed by
    [get_range] satisfy [low <= high <= size], on a sorted queue or not, so
    that the loops from [low] to [high] stay inside the queue. *)
Theorem get_range_in_bounds objs q s e :
  s ≤ e →
  ((get_range objs q s e).1 ≤ (get_range objs q s e).2)%nat ∧
  ((get_range objs q s e).2 ≤ length q)%nat.
Proof.
  intros Hse. split; [by apply get_range_le|].
  unfold get_range, upper_bound. cbn [snd].
  pose proof (upper_bound_loop_bounds (length q) q
    (λ map_value, get_insert_time (objs !!! map_value) >? e) 0 (length q)).
  lia.
Qed.

(** An unsorted queue of three records, inserted at times 30, 10 and 20. *)
Lemma get_range_in_bounds_witness :
  15 ≤ 25 ∧
  let objs := [KeyValue_ctor 1 0 (-1) 30; KeyValue_ctor 2 0 (-1) 10;
               KeyValue_ctor 3 0 (-1) 20] in
  ((get_range objs [0; 1; 2]%nat 15 25).2 ≤ 3)%nat.
Proof.
  assert (H : 15 ≤ 25) by lia.
  split; [exact H|].
  exact (proj2 (get_range_in_bounds
    [KeyValue_ctor 1 0 (-1) 30; KeyValue_ctor 2 0 (-1) 10;
     KeyValue_ctor 3 0 (-1) 20] [0; 1; 2]%nat 15 25 H)).
Defined.

(** A slice of a list is a filter, when the predicate holds exactly on the
    positions of the slice. *)
Lemma take_drop_filter {A} (P : A → Prop) `{!∀ x, Decision (P x)}
    (l : list A) (low high : nat) :
  (low ≤ high)%nat →
  (∀ i x, l !! i = Some x → (P x ↔ (low ≤ i < high)%nat)) →
  take (high - low) (drop low l) = filter P l.
Proof.
  revert low high. induction l as [|x l IH]; intros low high Hle HP.
  { by rewrite drop_nil, take_nil. }
  destruct low as [|low].
  - destruct high as [|high].
    + rewrite filter_cons_False by (rewrite (HP 0%nat x eq_refl); lia).
      rewrite <-(IH 0%nat 0%nat); [done|lia|].
      intros i y Hi. rewrite (HP (S i) y Hi). lia.
    + rewrite filter_cons_True by (rewrite (HP 0%nat x eq_refl); lia).
      rewrite <-(IH 0%nat high); [by rewrite !Nat.sub_0_r|lia|].
      intros i y Hi. rewrite (HP (S i) y Hi). lia.
  - destruct high as [|high]; [lia|].
    rewrite filter_cons_False by (rewrite (HP 0%nat x eq_refl); lia).
    rewrite <-(IH low high); [done|lia|].
    intros i y Hi. rewrite (HP (S i) y Hi). lia.
Qed.

Lemma filter_none {A} (P : A → Prop) `{!∀ x, Decision (P x)} (l : list A) :
  (∀ x, ¬ P x) → filter P l = [].
Proof.
  intros HP. induction l as [|x l IH]; [done|].
  by rewrite filter_cons_False.
Qed.

Lemma range_iter_filter objs q s e :
  queue_sorted objs q →
  s ≤ e →
  range_iter q (get_range objs q s e) =
    filter (λ p, s ≤ get_insert_time (objs !!! p) ≤ e) q.
Proof.
  intros Hs Hse. unfold range_iter.
  destruct (get_range_spec objs q s e Hs) as (_ & _ & Hlow & Hhigh).
  apply take_drop_filter; [by apply get_range_le|].
  intros i p Hi. rewrite (Hlow i p Hi).
  assert ((i < (get_range objs q s e).2)%nat ↔
          ¬ e < get_insert_time (objs !!! p))
    by (rewrite <-(Hhigh i p Hi); lia).
  lia.
Qed.

Lemma get_by_time_range_loop now m its result :
  foldl (λ result it,
           if negb (is_expire (deref m it) now)
           then result ++ [deref m it] else result) result its =
  result ++ (deref m <$> filter (λ p, is_expire (deref m p) now = false) its).
Proof.
  revert result. induction its as [|p its IH]; intros result.
  { simpl. by rewrite app_nil_r. }
  cbn [foldl]. rewrite IH. destruct (is_expire (deref m p) now) eqn:E; simpl.
  - by rewrite filter_cons_False by congruence.
  - rewrite filter_cons_True by done. by rewrite fmap_cons, <-app_assoc.
Qed.

Lemma get_by_time_range_filter s e asc now m :
  queue_sorted (objects m) (_queue m) →
  get_by_time_range s e asc now m =
    (deref m <$>
       filter (λ p, is_expire (deref m p) now = false)
         (filter (λ p, s ≤ get_insert_time (deref m p) ≤ e) (_queue m)),
     m).
Proof.
  intros Hs. unfold get_by_time_range. destruct (s >? e) eqn:Ese.
  - apply Z.gtb_gt in Ese. f_equal.
    rewrite (filter_none (λ p, s ≤ get_insert_time (deref m p) ≤ e));
      [done|]. intros p. lia.
  - rewrite Z.gtb_ltb in Ese. apply Z.ltb_ge in Ese.
    rewrite get_by_time_range_loop, range_iter_filter by done. done.
Qed.

(** X5: on a sorted queue, [get_by_time_range] returns copies of the records
    of [_queue] that were inserted from [start_time] to [end_time], both
    included, and are not expired, in the order of the queue whatever [asc]
    is; nothing when [start_time > end_time]; the map is left as it is. *)
Theorem get_by_time_range_spec s e asc now m :
  queue_sorted (objects m) (_queue m) →
  get_by_time_range s e asc now m =
    (deref m <$>
       filter (λ p, is_expire (deref m p) now = false)
         (filter (λ p, s ≤ get_insert_time (deref m p) ≤ e) (_queue m)),
     m).
Proof. apply get_by_time_range_filter. Qed.

(** After [trace_updated] the range from 0 to 9 holds both records of key 1;
    the superseded one is filtered out. *)
Lemma get_by_time_range_spec_witness :
  queue_sorted (objects (run trace_updated)) (_queue (run trace_updated)) ∧
  (get_by_time_range 0 9 true 9 (run trace_updated)).1
    = [deref (run trace_updated) 1%nat].
Proof.
  assert (Hs : queue_sorted (objects (run trace_updated))
                 (_queue (run trace_updated))).
  { repeat constructor. vm_compute. discriminate. }
  split; [exact Hs|].
  exact (f_equal fst (get_by_time_range_spec 0 9 true 9 (run trace_updated) Hs)).
Defined.

Lemma filter_none_elem {A} (P : A → Prop) `{!∀ x, Decision (P x)} (l : list A) :
  (∀ x, x ∈ l → ¬ P x) → filter P l = [].
Proof.
  induction l as [|x l IH]; intros HP; [done|].
  rewrite filter_cons_False by (apply HP; by left).
  apply IH. intros y Hy. apply HP. by right.
Qed.

(** The loop of [erase_by_time_range] tombstones every record it visits. *)
Lemma erase_range_loop_tombstones its count m x :
  x ∈ its → (x < length (objects m))%nat →
  _is_delete
    (deref (foldl (λ st it, erase_range_body it st) (count, m) its).2 x) = true.
Proof.
  revert count m. induction its as [|y its IH]; intros count m Hin Hx;
    [by apply elem_of_nil in Hin|].
  simpl. fold (erase_step y m).
  pose proof (erase_step_tombstones y m) as Ht.
  destruct (erase_step_facts y m) as (Hlen & _).
  destruct (erase_step y m) as [ok m2]. simpl in *.
  apply elem_of_cons in Hin as [->|Hin]; [|apply IH; [done|lia]].
  destruct (erase_range_loop_facts its (if ok then count + 1 else count) m2)
    as (_ & Hsf & _).
  unfold deref. eapply same_fields_tombstone; [done|lia|]. by apply Ht.
Qed.

(** X7: on a sorted queue of a reachable state, after
    [erase_by_time_range(start_time, end_time)] the query
    [get_by_time_range] on the same range returns nothing, and the key of
    every record of [_queue] inserted in the range is read as absent. *)
Theorem get_by_time_range_after_erase clock s e asc now m :
  reachable clock m →
  queue_sorted (objects m) (_queue m) →
  let m' := (erase_by_time_range s e m).2 in
  (get_by_time_range s e asc now m').1 = [] ∧
  ∀ p, p ∈ _queue m → s ≤ get_insert_time (deref m p) ≤ e →
       get_by_key (get_key (deref m p)) now m' = (None, m').
Proof.
  intros HI%reachable_Inv Hs m'.
  destruct (erase_by_time_range_spec s e m Hs) as (_ & Hkeys & _).
  fold m' in Hkeys.
  split; [|intros p Hp Hr; unfold get_by_key; by rewrite Hkeys].
  assert (Hm' : _queue m' = _queue m ∧
                same_fields (objects m) (objects m') ∧
                ∀ p, p ∈ _queue m → s ≤ get_insert_time (deref m p) ≤ e →
                     _is_delete (deref m' p) = true).
  { unfold m', erase_by_time_range. destruct (s >? e) eqn:Ese.
    - apply Z.gtb_gt in Ese. split_and!; [done|apply same_fields_refl|].
      intros p _ ?. lia.
    - rewrite Z.gtb_ltb in Ese. apply Z.ltb_ge in Ese.
      destruct (erase_range_loop_facts
                  (range_iter (_queue m)
                     (get_range (objects m) (_queue m) s e)) 0 m)
        as (_ & Hsf & Hq & _).
      split_and!; [done..|]. intros p Hp Hr.
      apply erase_range_loop_tombstones; [|by eapply inv_queue_ptr].
      by apply range_iter_spec. }
  destruct Hm' as (Hq & Hsf & Htomb).
  assert (Hit : ∀ p, p ∈ _queue m →
            get_insert_time (deref m' p) = get_insert_time (deref m p)).
  { intros p Hp. apply same_fields_insert_time; [done|].
    by eapply inv_queue_ptr. }
  assert (Hs' : queue_sorted (objects m') (_queue m')).
  { rewrite Hq. by apply (queue_sorted_ext (objects m)). }
  rewrite (get_by_time_range_filter s e asc now m' Hs'). cbn [fst].
  rewrite filter_none_elem; [done|].
  intros p [Hr Hp]%list_elem_of_filter. rewrite Hq in Hp.
  rewrite Hit in Hr by done.
  unfold is_expire. by rewrite (Htomb p Hp Hr).
Qed.

Lemma get_by_time_range_after_erase_witness :
  reachable 5 (run trace_updated) ∧
  queue_sorted (objects (run trace_updated)) (_queue (run trace_updated)) ∧
  (get_by_time_range 0 9 true 9
     (erase_by_time_range 0 9 (run trace_updated)).2).1 = [].
Proof.
  pose (Hr := run_reachable true 0 trace_updated eq_refl).
  assert (Hs : queue_sorted (objects (run trace_updated))
                 (_queue (run trace_updated))).
  { repeat constructor. vm_compute. discriminate. }
  split; [exact Hr|].
  split; [exact Hs|].
  exact (proj1 (get_by_time_range_after_erase 5 0 9 true 9
                  (run trace_updated) Hr Hs)).
Defined.

(** ** Reclamation *)

Lemma marks_tombstone now o o' p :
  marks now o o' → _is_delete (o !!! p) = true → _is_delete (o' !!! p) = true.
Proof. intros [_ H] Hd. by destruct (H p) as [-> | [_ ->]]. Qed.

Lemma tick_loop_spec now h o :
  ∃ popped,
    h = popped ++ (tick_loop now h o).1 ∧
    Forall (λ p, is_expire (o !!! p) now = true) popped ∧
    (∀ top, head (tick_loop now h o).1 = Some top →
            is_expire (o !!! top) now = false) ∧
    (∀ p, p ∈ popped → (p < length o)%nat →
          _is_delete ((tick_loop now h o).2 !!! p) = true) ∧
    (∀ p, p ∉ popped → (tick_loop now h o).2 !!! p = o !!! p).
Proof.
  revert o. induction h as [|top h IH]; intros o; simpl.
  { exists []. split_and!; [done|constructor|done|by intros ? ?%elem_of_nil|done]. }
  destruct (is_expire (o !!! top) now) eqn:E; simpl.
  - pose proof (marks_alter now o top E) as Hm.
    destruct (IH (alter delete_value top o)) as (popped & Hh & Hp & Hd & Ht & Hu).
    exists (top :: popped). split_and!.
    + simpl. by rewrite <-Hh.
    + constructor; [done|]. eapply Forall_impl; [done|].
      intros p. cbn. by rewrite (marks_is_expire _ _ _ p Hm).
    + intros t Ht'. rewrite <-(marks_is_expire _ _ _ t Hm). by apply Hd.
    + intros p [->|Hin]%elem_of_cons Hlt.
      * eapply marks_tombstone; [apply tick_loop_marks|].
        rewrite alter_delete_value_lookup. by rewrite decide_True.
      * apply Ht; [done|]. by rewrite length_alter.
    + intros p [Hne Hnin]%not_elem_of_cons. rewrite Hu by done.
      by rewrite list_lookup_total_alter_ne.
  - exists []. split_and!; [done|constructor| |by intros ? ?%elem_of_nil|done].
    intros t [= <-]. done.
Qed.

Lemma tick_prefix now m :
  ∃ popped,
    _min_expire_heap m = popped ++ _min_expire_heap (tick now m) ∧
    Forall (λ p, is_expire (deref m p) now = true) popped ∧
    (∀ top, head (_min_expire_heap (tick now m)) = Some top →
            is_expire (deref m top) now = false) ∧
    (∀ p, p ∈ popped → (p < length (objects m))%nat →
          _is_delete (deref (tick now m) p) = true) ∧
    (∀ p, p ∉ popped → deref (tick now m) p = deref m p) ∧
    _data_map (tick now m) = _data_map m ∧
    _queue (tick now m) = _queue m.
Proof.
  destruct (tick_loop_spec now (_min_expire_heap m) (objects m))
    as (popped & H1 & H2 & H3 & H4 & H5).
  exists popped. unfold tick, deref.
  destruct (tick_loop now (_min_expire_heap m) (objects m)) as [h o].
  by split_and!.
Qed.

(** X8: [tick] pops a prefix of the heap, all of it expired, tombstones the
    records it pops, and stops at the first record that is not expired; it
    leaves [_data_map], [_queue] and every other record as they were. *)
Theorem tick_spec now m :
  ∃ popped,
    _min_expire_heap m = popped ++ _min_expire_heap (tick now m) ∧
    Forall (λ p, is_expire (deref m p) now = true) popped ∧
    (∀ top, head (_min_expire_heap (tick now m)) = Some top →
            is_expire (deref m top) now = false) ∧
    (∀ p, p ∈ popped → (p < length (objects m))%nat →
          _is_delete (deref (tick now m) p) = true) ∧
    (∀ p, p ∉ popped → deref (tick now m) p = deref m p) ∧
    _data_map (tick now m) = _data_map m ∧
    _queue (tick now m) = _queue m.
Proof. apply tick_prefix. Qed.

Lemma tick_all_heap_perm now h new_heap o :
  (tick_all_heap now h new_heap o).1 ≡ₚ
    new_heap ++ filter (λ p, is_expire (o !!! p) now = false) h.
Proof.
  revert new_heap o. induction h as [|top h IH]; intros new_heap o; simpl.
  { by rewrite filter_nil, app_nil_r. }
  destruct (is_expire (o !!! top) now) eqn:E.
  - pose proof (marks_alter now o top E) as Hm.
    rewrite IH, filter_cons_False by congruence.
    rewrite (list_filter_iff
               (λ p, is_expire (alter delete_value top o !!! p) now = false)
               (λ p, is_expire (o !!! p) now = false)); [done|].
    intros p. by rewrite (marks_is_expire _ _ _ p Hm).
  - rewrite IH, filter_cons_True by done.
    rewrite heap_push_perm. simpl. apply Permutation_middle.
Qed.

Lemma tick_all_kept now m :
  let m' := tick_all now m in
  _queue m' = filter (λ p, is_expire (deref m p) now = false) (_queue m) ∧
  _min_expire_heap m' ≡ₚ
    filter (λ p, is_expire (deref m p) now = false) (_min_expire_heap m) ∧
  (∀ k p, _data_map m' !! k = Some p ↔
          _data_map m !! k = Some p ∧ is_expire (deref m p) now = false) ∧
  (∀ p, is_expire (deref m p) now = false → deref m' p = deref m p) ∧
  length (objects m') = length (objects m).
Proof.
  intros m'. destruct (tick_all_facts now m) as (Hm & Hq & HA & HB).
  fold m' in Hm, Hq, HA, HB. split_and!; [done| | | |apply Hm].
  - unfold m', tick_all.
    pose proof (tick_all_heap_perm now (_min_expire_heap m) [] (objects m)) as H.
    destruct (tick_all_heap _ _ _ _) as [nh o1].
    destruct (tick_all_queue _ _ _ _) as [nq o2].
    destruct (tick_all_map _ _ _) as [dm o3]. done.
  - intros k p. split; [by apply HA|]. intros [Hkp Hne].
    destruct (_data_map m' !! k) as [p'|] eqn:E.
    + apply HA in E as [E _]. congruence.
    + rewrite (HB _ _ Hkp E) in Hne. done.
  - intros p Hne. destruct Hm as [_ Hm]. unfold deref in *.
    destruct (Hm p) as [?|[Hex _]]; [done|congruence].
Qed.

(** X9: [tick_all] keeps in [_queue], in [_min_expire_heap] and in
    [_data_map] exactly what is not expired, the queue in its order, and the
    records it keeps are unchanged. *)
Theorem tick_all_spec now m :
  let m' := tick_all now m in
  _queue m' = filter (λ p, is_expire (deref m p) now = false) (_queue m) ∧
  _min_expire_heap m' ≡ₚ
    filter (λ p, is_expire (deref m p) now = false) (_min_expire_heap m) ∧
  (∀ k p, _data_map m' !! k = Some p ↔
          _data_map m !! k = Some p ∧ is_expire (deref m p) now = false) ∧
  (∀ p, is_expire (deref m p) now = false → deref m' p = deref m p) ∧
  length (objects m') = length (objects m).
Proof. apply tick_all_kept. Qed.

Lemma marks_later now now' o o' p :
  marks now o o' → now ≤ now' →
  is_expire (o' !!! p) now' = is_expire (o !!! p) now' ∧
  (is_expire (o !!! p) now' = false → o' !!! p = o !!! p).
Proof.
  intros [_ H] Hle. destruct (H p) as [->|[Hex ->]]; [done|].
  rewrite (is_expire_mono _ _ _ Hle Hex). done.
Qed.

Lemma filter_reclaimed now now' (m m' : SafeMap) (l : list ptr) :
  marks now (objects m) (objects m') → now ≤ now' →
  filter (λ kv, is_expire kv now' = false)
    (deref m' <$> filter (λ p, is_expire (deref m p) now = false) l) =
  filter (λ kv, is_expire kv now' = false) (deref m <$> l).
Proof.
  intros Hm Hle. induction l as [|p l IH]; [done|].
  destruct (marks_later _ _ _ _ p Hm Hle) as [He Hs]. fold (deref m' p) in He, Hs.
  fold (deref m p) in He, Hs. rewrite fmap_cons.
  destruct (is_expire (deref m p) now) eqn:E.
  - rewrite filter_cons_False by congruence. rewrite IH.
    rewrite (filter_cons_False _ (deref m p)); [done|].
    by rewrite (is_expire_mono _ _ _ Hle E).
  - rewrite filter_cons_True by done. rewrite fmap_cons.
    destruct (is_expire (deref m p) now') eqn:E'.
    + rewrite !filter_cons_False by congruence. done.
    + rewrite Hs by done. rewrite !filter_cons_True by done. by rewrite IH.
Qed.

Lemma filter_marked now now' (m m' : SafeMap) (l : list ptr) :
  marks now (objects m) (objects m') → now ≤ now' →
  filter (λ kv, is_expire kv now' = false) (deref m' <$> l) =
  filter (λ kv, is_expire kv now' = false) (deref m <$> l).
Proof.
  intros Hm Hle. induction l as [|p l IH]; [done|].
  destruct (marks_later _ _ _ _ p Hm Hle) as [He Hs]. fold (deref m' p) in He, Hs.
  fold (deref m p) in He, Hs. rewrite !fmap_cons.
  destruct (is_expire (deref m p) now') eqn:E'.
  - rewrite !filter_cons_False by congruence. done.
  - rewrite Hs by done. rewrite !filter_cons_True by done. by rewrite IH.
Qed.

(** X10: reclamation does not change what is read afterwards: at any time
    from [now] on, [get_by_key] and [get_by_order] return the same after
    [tick] and after [tick_all], run at [now], as without them. *)
Theorem reads_after_reclamation now now' m key n asc :
  now ≤ now' →
  (get_by_key key now' (tick now m)).1 = (get_by_key key now' m).1 ∧
  (get_by_key key now' (tick_all now m)).1 = (get_by_key key now' m).1 ∧
  (get_by_order n asc now' (tick now m)).1 = (get_by_order n asc now' m).1 ∧
  (get_by_order n asc now' (tick_all now m)).1 = (get_by_order n asc now' m).1.
Proof.
  intros Hle.
  destruct (tick_facts now m) as (Hm1 & Hd1 & Hq1).
  destruct (tick_all_facts now m) as (Hm2 & Hq2 & HA & HB).
  assert (Hget : ∀ m' p, marks now (objects m) (objects m') →
            (if is_expire (deref m' p) now' then None
             else Some (get_value (deref m' p))) =
            (if is_expire (deref m p) now' then None
             else Some (get_value (deref m p)))).
  { intros m' p Hm. destruct (marks_later _ _ _ _ p Hm Hle) as [He Hs].
    unfold deref. rewrite He.
    destruct (is_expire (objects m !!! p) now') eqn:E; [done|]. by rewrite Hs. }
  assert (Hfst : ∀ k x, (get_by_key k now' x).1 =
            match _data_map x !! k with
            | None => None
            | Some p => if is_expire (deref x p) now' then None
                        else Some (get_value (deref x p))
            end).
  { intros k x. unfold get_by_key. destruct (_data_map x !! k); [|done].
    by destruct (is_expire _ _). }
  split_and!.
  - rewrite !Hfst, Hd1. destruct (_data_map m !! key); [|done]. by apply Hget.
  - rewrite !Hfst. destruct (_data_map (tick_all now m) !! key) as [p|] eqn:E.
    + apply HA in E as [-> _]. by apply Hget.
    + destruct (_data_map m !! key) as [p|] eqn:E0; [|done].
      by rewrite (is_expire_mono _ _ _ Hle (HB _ _ E0 E)).
  - rewrite !get_by_order_spec. cbn [fst]. rewrite Hq1.
    by rewrite (filter_marked now now' m).
  - rewrite !get_by_order_spec. cbn [fst]. rewrite Hq2. f_equal.
    destruct asc.
    + by apply filter_reclaimed.
    + rewrite <-filter_reverse. by apply filter_reclaimed.
Qed.

(** Key 1 of [trace_expired], swept at 6 ms and read at 7 ms. *)
Lemma reads_after_reclamation_witness :
  6000000 ≤ 7000000 ∧
  (get_by_key 1 7000000 (tick_all 6000000 (run trace_expired))).1
    = (get_by_key 1 7000000 (run trace_expired)).1.
Proof.
  assert (H : 6000000 ≤ 7000000) by lia.
  split; [exact H|].
  exact (proj1 (proj2
    (reads_after_reclamation 6000000 7000000 (run trace_expired) 1 3 true H))).
Defined.

(** ** Every mapped record is in the queue and in the heap *)

Lemma indexed_shrink ticks clock now m m' :
  Inv ticks clock m → indexed clock m → clock ≤ now →
  same_fields (objects m) (objects m') →
  (∀ k p, _data_map m' !! k = Some p → _data_map m !! k = Some p) →
  (∀ k p, _data_map m' !! k = Some p → p ∈ _queue m → p ∈ _queue m') →
  (∀ k p, _data_map m' !! k = Some p →
          is_expire (deref m' p) now = false →
          p ∈ _min_expire_heap m → p ∈ _min_expire_heap m') →
  indexed now m'.
Proof.
  intros HI Hx Hle [_ Hsf] Hsub Hq Hh k p Hkp.
  pose proof (Hsub _ _ Hkp) as Hold. destruct (Hx _ _ Hold) as [Hpq Hph].
  split; [by eapply Hq|]. intros Hne. eapply Hh; [done..|]. apply Hph.
  pose proof (inv_map_ptr _ _ _ HI _ _ Hold) as Hlt. unfold deref in *.
  destruct (Hsf p Hlt) as [E|E]; rewrite E in Hne; [|done].
  destruct (is_expire (objects m !!! p) clock) eqn:Ec; [|done].
  by rewrite (is_expire_mono _ _ _ Hle Ec) in Hne.
Qed.

Lemma erase_by_order_loop_heap n now its count m :
  let r := erase_by_order_loop n now its count m in
  _min_expire_heap r.2 = _min_expire_heap m ∧
  ∀ k p, _data_map r.2 !! k = Some p → _data_map m !! k = Some p.
Proof.
  revert count m. induction its as [|x its IH]; intros count m; simpl; [done|].
  destruct (negb (is_expire (deref m x) now)); [|apply IH].
  fold (erase_step x m).
  destruct (erase_step_facts x m) as (_ & _ & _ & Hh & Hm & _).
  destruct (erase_step x m) as [ok m2]. simpl in *.
  assert (Hsub : ∀ k p, _data_map m2 !! k = Some p → _data_map m !! k = Some p)
    by (intros k p; rewrite Hm; by intros [_ ?]%lookup_delete_Some).
  destruct (_ >=? n); simpl; [done|].
  destruct (IH (if ok then count + 1 else count) m2) as [Ih Isub].
  split; [congruence|auto].
Qed.

Lemma erase_range_loop_heap its count m :
  _min_expire_heap (foldl (λ st it, erase_range_body it st) (count, m) its).2
    = _min_expire_heap m.
Proof.
  revert count m. induction its as [|x its IH]; intros count m; simpl; [done|].
  fold (erase_step x m).
  destruct (erase_step_facts x m) as (_ & _ & _ & Hh & _).
  destruct (erase_step x m) as [ok m2]. simpl in *. by rewrite IH.
Qed.

Lemma indexed_insert_without_lock clock key p m :
  indexed clock m → indexed clock (insert_without_lock key p m).2.
Proof.
  intros Hx. unfold insert_without_lock.
  destruct (_data_map m !! key) eqn:E; [done|]. intros k q. cbn.
  unfold deref. cbn. rewrite elem_of_app, heap_push_perm.
  intros [[-> ->]|[_ Hq]]%lookup_insert_Some.
  - split; [right; by apply list_elem_of_singleton|intros _; by left].
  - destruct (Hx _ _ Hq) as [? Hh].
    split; [by left|intros Hne; right; by apply Hh].
Qed.

Lemma indexed_create ticks clock key value i now m :
  Inv ticks clock m → indexed clock m →
  indexed clock (create key value i now m).2.
Proof.
  intros HI Hx k p Hkp. cbn in Hkp. destruct (Hx _ _ Hkp) as [? Hh].
  split; [done|]. unfold deref. cbn.
  rewrite lookup_total_app_l by by eapply inv_map_ptr. done.
Qed.

Lemma indexed_erase_step ticks clock r m :
  Inv ticks clock m → indexed clock m → indexed clock (erase_step r m).2.
Proof.
  intros HI Hx.
  destruct (erase_step_facts r m) as (_ & Hsf & Hq & Hh & Hm & _).
  eapply indexed_shrink; eauto; [lia|..].
  - intros k p. rewrite Hm. by intros [_ ?]%lookup_delete_Some.
  - intros k p _. by rewrite Hq.
  - intros k p _ _. by rewrite Hh.
Qed.

Lemma indexed_exec ticks clock op now m :
  Inv ticks clock m → indexed clock m →
  (reads_clock_before_lock op = false → clock ≤ now) →
  indexed (Z.max clock now) (exec op now m).
Proof.
  intros HI Hx Hc.
  assert (Hadv : ∀ x, Inv ticks clock x → indexed clock x →
            indexed (Z.max clock now) x).
  { intros x HIx Hxx. eapply indexed_shrink; eauto using same_fields_refl.
    lia. }
  destruct op; simpl in *;
    try (specialize (Hc eq_refl); rewrite Z.max_r in * by done).
  - pose proof (Inv_insert _ _ key value expire_time_interval now _ HI) as HI'.
    apply Hadv; [done|]. unfold insert in *.
    pose proof (indexed_create _ _ key value expire_time_interval now _ HI Hx).
    destruct (create _ _ _ _ _) as [p m1].
    pose proof (indexed_insert_without_lock clock key p m1).
    destruct (insert_without_lock key p m1) as [[] m2]; simpl in *; auto.
  - pose proof (Inv_update_value _ _ key value expire_time_interval now _ HI)
      as HI'.
    apply Hadv; [done|].
    destruct (_data_map m !! key) as [old|] eqn:Hk;
      [|by unfold update_value; rewrite Hk].
    rewrite (update_value_unfold _ _ _ _ _ _ Hk). cbn [snd].
    apply indexed_insert_without_lock.
    eapply indexed_erase_step; [by apply Inv_create|by eapply indexed_create].
  - unfold erase_by_key. apply Hadv; [by apply Inv_erase_without_lock|].
    destruct (erase_without_lock_facts key m) as (_ & Hsf & Hq & Hh & Hm & _).
    eapply indexed_shrink; eauto; [lia|..].
    + intros k p. rewrite Hm. by intros [_ ?]%lookup_delete_Some.
    + intros k p _. by rewrite Hq.
    + intros k p _ _. by rewrite Hh.
  - apply Hadv; [by apply Inv_erase_by_time_range|].
    unfold erase_by_time_range. destruct (_ >? _); [done|].
    destruct (erase_range_loop_facts
                (range_iter (_queue m)
                   (get_range (objects m) (_queue m) start_time end_time)) 0 m)
      as (_ & Hsf & Hq & Hsub & _).
    eapply indexed_shrink; eauto; [lia|..].
    + intros k p _. by rewrite Hq.
    + intros k p _ _. by rewrite erase_range_loop_heap.
  - apply Hadv; [by apply Inv_erase_by_order_loop|].
    unfold erase_by_order.
    set (its := if asc then _ else _).
    destruct (erase_by_order_loop_facts n now its 0 m) as [Hq Hsf].
    destruct (erase_by_order_loop_heap n now its 0 m) as [Hh Hsub].
    eapply indexed_shrink; eauto; [lia|..].
    + intros k p _. by rewrite Hq.
    + intros k p _ _. by rewrite Hh.
  - rewrite get_by_key_spec. destruct (_data_map m !! key) as [p|] eqn:E;
      [destruct (live _ _)|]; simpl;
      try (eapply indexed_shrink; eauto using same_fields_refl; fail).
    eapply indexed_shrink; eauto using same_fields_refl; simpl.
    intros k q. by intros [_ ?]%lookup_delete_Some.
  - unfold get_by_time_range. destruct (_ >? _); simpl;
      eapply indexed_shrink; eauto using same_fields_refl.
  - eapply indexed_shrink; eauto using same_fields_refl.
  - destruct (tick_prefix now m) as (popped & Hh & Hp & _ & _ & _ & Hd & Hq).
    destruct (tick_facts now m) as (Hm & _).
    eapply indexed_shrink; eauto using marks_same_fields.
    + intros k p. by rewrite Hd.
    + intros k p _. by rewrite Hq.
    + intros k p _ Hne. rewrite Hh, elem_of_app. intros [Hin|?]; [|done].
      rewrite Forall_forall in Hp. specialize (Hp p Hin).
      unfold deref in *. rewrite (marks_is_expire _ _ _ p Hm) in Hne. congruence.
  - destruct (tick_all_kept now m) as (Hq & Hh & Hd & _).
    destruct (tick_all_facts now m) as (Hm & _).
    eapply indexed_shrink; eauto using marks_same_fields.
    + intros k p. rewrite Hd. tauto.
    + intros k p [_ Hne]%Hd Hin. rewrite Hq. by apply list_elem_of_filter.
    + intros k p [_ Hne]%Hd _ Hin. rewrite Hh. by apply list_elem_of_filter.
Qed.

(** X11: in every reachable state, the record a key of [_data_map] is
    mapped to is in [_queue], and it is in [_min_expire_heap] unless it is
    expired: the reclaimer will find every record that can still expire. *)
Theorem mapped_record_is_indexed ticks clock m k p :
  reachable_with ticks clock m →
  _data_map m !! k = Some p →
  p ∈ _queue m ∧
  (is_expire (deref m p) clock = false → p ∈ _min_expire_heap m).
Proof.
  intros Hr. revert k p. change (indexed clock m).
  induction Hr as [clock|clock m op now Hr IH Ht Hc].
  - intros k p. cbn. by rewrite lookup_empty.
  - apply (indexed_exec ticks); [by apply reachable_Inv|done..].
Qed.

Lemma mapped_record_is_indexed_witness :
  reachable 5 (run trace_updated) ∧
  _data_map (run trace_updated) !! 1 = Some 1%nat ∧
  1%nat ∈ _queue (run trace_updated).
Proof.
  pose (Hr := run_reachable true 0 trace_updated eq_refl).
  split; [exact Hr|].
  split; [reflexivity|].
  exact (proj1 (mapped_record_is_indexed true 5 (run trace_updated) 1 1%nat
                  Hr eq_refl)).
Defined.

(** ** The reclaimer loop *)

Lemma succ_mod_101 (L : Z) :
  0 ≤ L →
  (L + 1) mod 101 = if L mod 101 =? 100 then 0 else L mod 101 + 1.
Proof.
  intros HL. pose proof (Z.div_mod L 101 ltac:(lia)) as Hdm.
  pose proof (Z.mod_pos_bound L 101 ltac:(lia)) as Hb.
  destruct (L mod 101 =? 100) eqn:E.
  - apply Z.eqb_eq in E. symmetry.
    apply (Z.mod_unique_pos _ _ (L / 101 + 1)); lia.
  - apply Z.eqb_neq in E. symmetry.
    apply (Z.mod_unique_pos _ _ (L / 101)); lia.
Qed.

(** X12: the loop of [loop_tick] runs [tick_all] on every 101st iteration
    and [tick] on the 100 iterations before it: iteration [i], counted from
    0, is a full sweep exactly when [i mod 101 = 100], and [count] is the
    number of iterations modulo 101. *)
Theorem loop_tick_schedule nows m :
  loop_tick nows m =
    (Z.of_nat (length nows) mod 101,
     foldl (λ x (it : nat * TimeStamp),
              if Z.of_nat it.1 mod 101 =? 100 then tick_all it.2 x
              else tick it.2 x)
           m (imap pair nows)).
Proof.
  unfold loop_tick. induction nows as [|now nows IH] using rev_ind; [done|].
  rewrite foldl_app, IH. cbn [foldl loop_tick_body].
  rewrite imap_app, foldl_app, length_app. cbn [imap foldl length fst snd].
  rewrite Nat.add_0_r, Nat2Z.inj_add. change (Z.of_nat 1) with 1.
  rewrite (succ_mod_101 (Z.of_nat (length nows))) by lia.
  unfold kCheckAllTimes. by destruct (_ =? 100).
Qed.

(** ** The constructor from a list *)

Lemma ctor_list_step k v t m :
  (∀ k p, _data_map m !! k = Some p →
     (p < length (objects m))%nat ∧ _is_delete (deref m p) = false ∧
     _expire_time_interval (deref m p) = -1) →
  let m' := (insert k v (-1) t m).2 in
  (∀ k p, _data_map m' !! k = Some p →
     (p < length (objects m'))%nat ∧ _is_delete (deref m' p) = false ∧
     _expire_time_interval (deref m' p) = -1) ∧
  ∀ k' now,
    (get_by_key k' now m').1 =
      match (get_by_key k' now m).1 with
      | Some x => Some x
      | None => if decide (k' = k) then Some v else None
      end.
Proof.
  intros Hp m'.
  assert (Hget : ∀ x k' now,
    (∀ k p, _data_map x !! k = Some p →
       (p < length (objects x))%nat ∧ _is_delete (deref x p) = false ∧
       _expire_time_interval (deref x p) = -1) →
    (get_by_key k' now x).1 =
      (λ p, get_value (deref x p)) <$> _data_map x !! k').
  { intros x k' now Hx. unfold get_by_key.
    destruct (_data_map x !! k') as [p|] eqn:E; [|done].
    destruct (Hx _ _ E) as (_ & Hd & Hi). unfold is_expire.
    by rewrite Hd, Hi. }
  assert (Hp' : ∀ k p, _data_map m' !! k = Some p →
     (p < length (objects m'))%nat ∧ _is_delete (deref m' p) = false ∧
     _expire_time_interval (deref m' p) = -1).
  { unfold m'. rewrite insert_unfold. case_decide; [done|]. cbn [snd].
    intros k0 p. unfold deref. cbn. rewrite length_app. cbn.
    intros [[-> <-]|[_ Hq]]%lookup_insert_Some.
    - rewrite list_lookup_total_middle by done. split_and!; [lia|done..].
    - destruct (Hp _ _ Hq) as (Hlt & ? & ?).
      rewrite lookup_total_app_l by done. split_and!; [lia|done..]. }
  split; [done|]. intros k' now.
  rewrite (Hget m' k' now Hp'), (Hget m k' now Hp).
  unfold m'. rewrite insert_unfold. case_decide as Hk; cbn [snd].
  - destruct (_data_map m !! k') eqn:E; cbn; [done|].
    case_decide; [|done]. subst. rewrite E in Hk. by destruct Hk.
  - cbn [_data_map]. destruct (decide (k' = k)) as [->|Hne].
    + rewrite lookup_insert_eq. cbn. unfold deref. cbn.
      rewrite list_lookup_total_middle by done.
      destruct (_data_map m !! k) eqn:E; [|done]. destruct Hk. by eexists.
    + rewrite lookup_insert_ne by done.
      destruct (_data_map m !! k') as [p|] eqn:E; cbn; [|done].
      unfold deref. cbn. destruct (Hp _ _ E) as (Hlt & _).
      by rewrite lookup_total_app_l.
Qed.

(** X13: in the map built from a list of pairs, a key is read as the value
    of its first pair in the list, at any time, and as absent when the list
    has no pair for it; the reads leave the map as it is. *)
Theorem get_by_key_ctor_list key_value_list clock key now :
  let m := SafeMap_ctor_list key_value_list clock in
  (get_by_key key now m).1 = (list_to_map key_value_list : gmap Z Z) !! key ∧
  (get_by_key key now m).2 = m.
Proof.
  intros m.
  assert (Hgen : ∀ l i x,
    (∀ k p, _data_map x !! k = Some p →
       (p < length (objects x))%nat ∧ _is_delete (deref x p) = false ∧
       _expire_time_interval (deref x p) = -1) →
    let r := (foldl (λ (st : nat * SafeMap) (item : Z * Z),
                (S st.1, (insert item.1 item.2 (-1) (clock st.1) st.2).2))
               (i, x) l).2 in
    (∀ k p, _data_map r !! k = Some p →
       _is_delete (deref r p) = false ∧
       _expire_time_interval (deref r p) = -1) ∧
    ∀ k' now',
      (get_by_key k' now' r).1 =
        match (get_by_key k' now' x).1 with
        | Some v => Some v
        | None => (list_to_map l : gmap Z Z) !! k'
        end).
  { induction l as [|[k v] l IH]; intros i x Hx; cbn.
    - split; [intros k p Hkp; by destruct (Hx _ _ Hkp) as (_ & ? & ?)|].
      intros k' now'. by destruct (get_by_key k' now' x).1.
    - destruct (ctor_list_step k v (clock i) x Hx) as [Hx' Hstep].
      destruct (IH (S i) _ Hx') as [Hr Hget]. split; [done|].
      intros k' now'. rewrite Hget, Hstep.
      destruct (get_by_key k' now' x).1; [done|].
      case_decide as Hd.
      + subst. by rewrite lookup_insert_eq.
      + by rewrite lookup_insert_ne. }
  destruct (Hgen key_value_list 0%nat SafeMap_ctor) as [Hr Hget].
  { intros k p. cbn. by rewrite lookup_empty. }
  fold (SafeMap_ctor_list key_value_list clock) in Hr, Hget. fold m in Hr, Hget.
  split; [by rewrite Hget|].
  unfold get_by_key. destruct (_data_map m !! key) as [p|] eqn:E; [|done].
  destruct (Hr _ _ E) as [Hd Hi]. unfold is_expire. by rewrite Hd, Hi.
Qed.

(** ** Order queries, erasure by order, and the sorted queue *)

(** X14: [get_by_order] returns copies of the first [max 1 n] records that
    are not expired, in the order of [_queue] when [asc] is set and in the
    reverse order otherwise, and leaves the map as it is. *)
Theorem get_by_order_first_live n asc now m :
  get_by_order n asc now m =
    (take (Z.to_nat (Z.max 1 n))
       (filter (λ kv, is_expire kv now = false)
          (deref m <$> (if asc then _queue m else reverse (_queue m)))),
     m).
Proof. apply get_by_order_spec. Qed.

(** X15: in a reachable state and for [n >= 1], [erase_by_order] returns at
    most [n], the count is the number of keys erased from [_data_map], and
    every record it tombstones was a live record of [_queue]. *)
Theorem erase_by_order_at_least_one clock n asc now m :
  reachable clock m →
  clock ≤ now →
  1 ≤ n →
  let r := erase_by_order n asc now m in
  0 ≤ r.1 ≤ n ∧
  r.1 = Z.of_nat (size (_data_map m)) - Z.of_nat (size (_data_map r.2)) ∧
  ∀ q, _is_delete (deref r.2 q) = true →
       _is_delete (deref m q) = true ∨
       (q ∈ _queue m ∧ live (deref m q) now = true).
Proof.
  intros Hr Hle Hn r.
  destruct (erase_by_order_live clock n asc now m Hr Hle) as (H1 & H2 & H3).
  pose proof (erase_by_order_count n asc now m) as Hc.
  specialize (H3 Hn). fold r in H1, H2, H3, Hc.
  split; [lia|]. by split.
Qed.

Lemma erase_by_order_at_least_one_witness :
  reachable 5 (run trace_updated) ∧
  5 ≤ 9 ∧
  1 ≤ 1 ∧
  0 ≤ (erase_by_order 1 true 9 (run trace_updated)).1 ≤ 1.
Proof.
  pose (Hr := run_reachable true 0 trace_updated eq_refl).
  assert (H1 : 5 ≤ 9) by lia.
  assert (H2 : 1 ≤ 1) by lia.
  split; [exact Hr|].
  split; [exact H1|].
  split; [exact H2|].
  exact (proj1 (erase_by_order_at_least_one 5 1 true 9 (run trace_updated)
                  Hr H1 H2)).
Defined.

(** X16: when every operation reads the clock after the previous operation
    has returned, [_queue] is in non-decreasing order of insertion time, and
    no record of it was inserted after the latest clock reading. *)
Theorem queue_sorted_in_serial_runs clock m :
  serial clock m →
  queue_sorted (objects m) (_queue m) ∧
  ∀ p, p ∈ _queue m → get_insert_time (deref m p) ≤ clock.
Proof. intros H. by apply serial_sorted in H as (_ & ? & ?). Qed.

Lemma queue_sorted_in_serial_runs_witness :
  serial 5 (run trace_updated) ∧
  queue_sorted (objects (run trace_updated)) (_queue (run trace_updated)).
Proof.
  assert (H1 : 0 ≤ 1) by lia.
  assert (H2 : 1 ≤ 5) by lia.
  pose (Hs := serial_step 1 _ (OpUpdate 1 8 0) 5
                (serial_step 0 _ (OpInsert 1 7 (-1)) 1 (serial_ctor 0) H1) H2).
  split; [exact Hs|].
  exact (proj1 (queue_sorted_in_serial_runs 5 (run trace_updated) Hs)).
Defined.

(** X17: on a sorted queue, the bisections of [get_range] return the
    position of the first record inserted at or after [start_time] and the
    position of the first record inserted after [end_time]. *)
Theorem get_range_on_sorted objs q s e :
  queue_sorted objs q →
  let low := (get_range objs q s e).1 in
  let high := (get_range objs q s e).2 in
  (low ≤ length q)%nat ∧ (high ≤ length q)%nat ∧
  (∀ i p, q !! i = Some p →
     ((low ≤ i)%nat ↔ s ≤ get_insert_time (objs !!! p))) ∧
  (∀ i p, q !! i = Some p →
     ((high ≤ i)%nat ↔ e < get_insert_time (objs !!! p))).
Proof. apply get_range_spec. Qed.

Lemma get_range_on_sorted_witness :
  queue_sorted (objects (run trace_updated)) (_queue (run trace_updated)) ∧
  ((get_range (objects (run trace_updated)) (_queue (run trace_updated))
      2 9).1 ≤ 2)%nat.
Proof.
  assert (Hs : queue_sorted (objects (run trace_updated))
                 (_queue (run trace_updated))).
  { repeat constructor. vm_compute. discriminate. }
  split; [exact Hs|].
  exact (proj1 (get_range_on_sorted (objects (run trace_updated))
                  (_queue (run trace_updated)) 2 9 Hs)).
Defined.

(** X18: on a sorted queue, [erase_by_time_range] does nothing and returns 0
    when [start_time > end_time]; otherwise it erases the key of every
    record of [_queue] inserted from [start_time] to [end_time], returns the
    number of keys erased from [_data_map], and tombstones only these
    records and the records their keys were mapped to. *)
Theorem erase_by_time_range_on_sorted s e m :
  queue_sorted (objects m) (_queue m) →
  let r := erase_by_time_range s e m in
  let in_range x := x ∈ _queue m ∧ s ≤ get_insert_time (deref m x) ≤ e in
  (s > e → r = (0, m)) ∧
  (∀ x, in_range x → _data_map r.2 !! get_key (deref m x) = None) ∧
  (∀ k p, _data_map r.2 !! k = Some p → _data_map m !! k = Some p) ∧
  (∀ q, _is_delete (deref r.2 q) = true →
        _is_delete (deref m q) = true ∨ in_range q ∨
        ∃ x, in_range x ∧ _data_map m !! get_key (deref m x) = Some q) ∧
  r.1 = Z.of_nat (size (_data_map m)) - Z.of_nat (size (_data_map r.2)).
Proof. apply erase_by_time_range_spec. Qed.

Lemma erase_by_time_range_on_sorted_witness :
  queue_sorted (objects (run trace_updated)) (_queue (run trace_updated)) ∧
  (erase_by_time_range 0 9 (run trace_updated)).1 =
    Z.of_nat (size (_data_map (run trace_updated))) -
    Z.of_nat (size (_data_map (erase_by_time_range 0 9 (run trace_updated)).2)).
Proof.
  assert (Hs : queue_sorted (objects (run trace_updated))
                 (_queue (run trace_updated))).
  { repeat constructor. vm_compute. discriminate. }
  split; [exact Hs|].
  exact (proj2 (proj2 (proj2 (proj2
    (erase_by_time_range_on_sorted 0 9 (run trace_updated) Hs))))).
Defined.
